(** * Verification of the corpus crawler (task1/hw1/crawler.py)

    A shallow embedding of the discovery-and-bounded-download pipeline:
    [fetch_html], [extract_links], [get_author_pages],
    [author_to_all_works_url], [collect_text_page_urls], [save_text],
    [download_pages] and [main].

    Modelling conventions.
    - A Python [str] is a [string]; one character stands for one code point
      (the model covers the code points below 256, where [\d] is [0-9]).
    - A Python [bytes] value is a [list byte]; the body of a response is the
      list of chunks that [resp.iter_content] delivers.
    - The network is a function from the number of requests issued so far
      and the URL to a [Response]: the same URL may answer differently on a
      later request.
    - Effects are explicit: a computation takes the request counter and
      gives a result (a value or a raised exception), the new counter and
      the trace of the events it performed, in order.  An interruption of
      the process leaves the effects of a prefix of the trace.
    - Two networks.  For sections [Crawler] and [Expected], and for the
      theorems on them, every body stream ends: [resp.iter_content] delivers
      its chunks and stops, and the transport can fail at [session.get]
      only, which is where the source catches it.  For module [Stream] a
      body stream may break: [resp.iter_content] raises after the chunks it
      has delivered, and, as in the source, nothing catches that.  The two
      crawlers agree where no fetch is cut short ([main_undisturbed]), and a
      run of the second is a run of the first, cut off at the first stream
      that breaks ([cut_off_main]).
    - The file system is taken to accept every write, and [urljoin] to
      return for every reference. *)

From Stdlib Require Import Strings.Ascii Strings.String Strings.Byte ZArith.
From stdpp Require Import base tactics option list gmap strings pretty.

Local Open Scope string_scope.
Local Open Scope list_scope.

(** ** Strings: the [str] methods the crawler uses *)

Module Str.

(** Code point of a character. *)
Definition code (c : ascii) : N := N_of_ascii c.

(** [str.lower] on one code point below 256: [A-Z] and the upper-case
    letters of Latin-1 (all of 192..222 but the multiplication sign 215). *)
Definition lower_char (c : ascii) : ascii :=
  let n := code c in
  if ((65 <=? n) && (n <=? 90))%N then ascii_of_N (n + 32)
  else if ((192 <=? n) && (n <=? 222) && negb (n =? 215))%N then ascii_of_N (n + 32)
  else c.

Fixpoint lower (s : string) : string :=
  match s with
  | EmptyString => EmptyString
  | String c s' => String (lower_char c) (lower s')
  end.

(** [needle in hay]. *)
Fixpoint contains (needle hay : string) : bool :=
  String.prefix needle hay ||
  match hay with
  | EmptyString => false
  | String _ hay' => contains needle hay'
  end.

(** [str.isspace] on one code point below 256. *)
Definition is_space (c : ascii) : bool :=
  let n := code c in
  (((9 <=? n) && (n <=? 13)) || ((28 <=? n) && (n <=? 32)) || (n =? 133) || (n =? 160))%N.

Fixpoint lstrip (s : string) : string :=
  match s with
  | EmptyString => EmptyString
  | String c s' => if is_space c then lstrip s' else s
  end.

(** Drops the trailing white space; the result of the tail decides whether
    a space character here is trailing. *)
Fixpoint rstrip (s : string) : string :=
  match s with
  | EmptyString => EmptyString
  | String c s' =>
      match rstrip s' with
      | EmptyString => if is_space c then EmptyString else String c EmptyString
      | r => String c r
      end
  end.

(** [s.strip()]. *)
Definition strip (s : string) : string := rstrip (lstrip s).

(** The scan of [s.replace(old, new)] for a non-empty [old]: [skip] counts
    the characters of the occurrence just replaced that are still to be
    passed over, so occurrences are taken left to right without overlap. *)
Fixpoint replace_scan (old new : string) (skip : nat) (s : string) : string :=
  match s with
  | EmptyString => EmptyString
  | String c s' =>
      match skip with
      | S k => replace_scan old new k s'
      | O =>
          if String.prefix old s
          then new +:+ replace_scan old new (String.length old - 1) s'
          else String c (replace_scan old new 0 s')
      end
  end.

(** With an empty [old], Python puts [new] before every character and at
    the end. *)
Fixpoint replace_empty (new s : string) : string :=
  match s with
  | EmptyString => new
  | String c s' => new +:+ String c (replace_empty new s')
  end.

(** [s.replace(old, new)]: every occurrence is replaced. *)
Definition replace (s old new : string) : string :=
  match old with
  | EmptyString => replace_empty new s
  | _ => replace_scan old new 0 s
  end.

(** ["\n".join(lines)] and the like. *)
Fixpoint join (sep : string) (parts : list string) : string :=
  match parts with
  | [] => EmptyString
  | [p] => p
  | p :: rest => p +:+ sep +:+ join sep rest
  end.

(** Truth value of a string: the empty string is false. *)
Definition truthy (s : string) : bool :=
  match s with EmptyString => false | _ => true end.

End Str.

(** ** Regular expressions: the two patterns of the crawler *)

Module Re.

Inductive regex : Type :=
| Void                              (* matches nothing *)
| Eps                               (* the empty string *)
| Chr (c : ascii)                   (* one given character *)
| Digit                             (* \d *)
| NotChr (c : ascii)                (* [^c] *)
| Cat (r1 r2 : regex)
| Alt (r1 r2 : regex)
| Star (r : regex).

(** A literal string. *)
Fixpoint lit (s : string) : regex :=
  match s with
  | EmptyString => Eps
  | String c s' => Cat (Chr c) (lit s')
  end.

Definition opt (r : regex) : regex := Alt r Eps.      (* r? *)
Definition plus (r : regex) : regex := Cat r (Star r). (* r+ *)

Fixpoint seq (rs : list regex) : regex :=
  match rs with
  | [] => Eps
  | r :: rs' => Cat r (seq rs')
  end.

(** [\d] on one code point below 256: of the decimal digits of Unicode,
    which [\d] takes in a [str] pattern, only [0] to [9] are below 256. *)
Definition is_digit (c : ascii) : bool :=
  let n := Str.code c in ((48 <=? n) && (n <=? 57))%N.

Fixpoint nullable (r : regex) : bool :=
  match r with
  | Void => false
  | Eps => true
  | Chr _ | Digit | NotChr _ => false
  | Cat r1 r2 => nullable r1 && nullable r2
  | Alt r1 r2 => nullable r1 || nullable r2
  | Star _ => true
  end.

(** Brzozowski derivative: what remains to be matched after reading [a]. *)
Fixpoint deriv (a : ascii) (r : regex) : regex :=
  match r with
  | Void | Eps => Void
  | Chr c => if Ascii.eqb a c then Eps else Void
  | Digit => if is_digit a then Eps else Void
  | NotChr c => if Ascii.eqb a c then Void else Eps
  | Cat r1 r2 =>
      if nullable r1 then Alt (Cat (deriv a r1) r2) (deriv a r2)
      else Cat (deriv a r1) r2
  | Alt r1 r2 => Alt (deriv a r1) (deriv a r2)
  | Star r1 => Cat (deriv a r1) (Star r1)
  end.

(** The whole of [s] matches [r]. *)
Fixpoint fullmatch (r : regex) (s : string) : bool :=
  match s with
  | EmptyString => nullable r
  | String a s' => fullmatch (deriv a r) s'
  end.

Definition newline : ascii := ascii_of_N 10.

(** [s] without a final newline, when it has one. *)
Fixpoint chop_newline (s : string) : option string :=
  match s with
  | EmptyString => None
  | String c EmptyString => if Ascii.eqb c newline then Some EmptyString else None
  | String c s' => String c <$> chop_newline s'
  end.

(** [re.match] of a pattern [^r$]: without the MULTILINE flag [$] matches at
    the end of the string and also just before a newline that ends it. *)
Definition match_anchored (r : regex) (s : string) : bool :=
  fullmatch r s ||
  match chop_newline s with
  | Some s' => fullmatch r s'
  | None => false
  end.

End Re.

(** ** Configuration constants of the crawler *)

Definition BASE : string := "https://ilibrary.ru".
Definition AUTHORS_PAGE : string := BASE +:+ "/author.html".
Definition OUT_DIR : string := "./task1/dump".
Definition URLS_TXT : string := "./task1/urls.txt".
Definition INDEX_TXT : string := "./task1/index.txt".
Definition MIN_PAGES_TO_DOWNLOAD : Z := 100.
Definition MAX_BYTES : Z := 5000000.

(** [https?://(?:www\.)?ilibrary\.ru], the head of both patterns. *)
Definition site_re : list Re.regex :=
  [Re.lit "http"; Re.opt (Re.Chr "s"); Re.lit "://"; Re.opt (Re.lit "www.");
   Re.lit "ilibrary.ru"].

(** [^https?://(?:www\.)?ilibrary\.ru/text/\d+/p\.\d+/index\.html$] *)
Definition TEXT_PAGE_RE : Re.regex :=
  Re.seq (site_re ++
          [Re.lit "/text/"; Re.plus Re.Digit; Re.lit "/p."; Re.plus Re.Digit;
           Re.lit "/index.html"]).

(** [^https?://(?:www\.)?ilibrary\.ru/author/[^/]+/index\.html$] *)
Definition AUTHOR_PAGE_RE : Re.regex :=
  Re.seq (site_re ++
          [Re.lit "/author/"; Re.plus (Re.NotChr "/"); Re.lit "/index.html"]).

Definition is_text_page (u : string) : bool := Re.match_anchored TEXT_PAGE_RE u.
Definition is_author_page (u : string) : bool := Re.match_anchored AUTHOR_PAGE_RE u.

(** [author_to_all_works_url]: a literal replacement in the whole URL. *)
Definition author_to_all_works_url (author_index_url : string) : string :=
  Str.replace author_index_url "/index.html" "/l.all/index.html".

(** ** The world: network responses, events, exceptions *)

(** What [session.get(url, stream=True)] gives: it raises a
    [requests.RequestException], or it returns a response with its
    Content-Type header (if any), the chunks its body stream delivers, and
    the encoding the transport declares (if any).  Whether the stream ends
    after these chunks or breaks is told by [breaks], in module [Stream]. *)
Inductive Response : Type :=
| RequestException
| Resp (content_type : option string) (body : list (list byte))
       (encoding : option string).

(** The lines the crawler prints. *)
Inductive LogMsg : Type :=
| SkipRequestError (url : string)
| SkipNotHtml (url ctype : string)
| SkipTooLarge (url : string)
| SkipTooSmall (url : string)
| InfoAuthorsFound (n : nat)
| InfoProcessed (authors collected : nat)
| InfoUrlsSaved (n : nat)
| SavedOk (num : nat) (url : string)
| DoneShortfall (saved : nat)
| DoneComplete (saved : nat).

(** The effects of the crawler, one event per effect. *)
Inductive Event : Type :=
| EvSleep                              (* polite_sleep() *)
| EvGet (url : string)                 (* session.get(url, ...) *)
| EvChunk (chunk : list byte)          (* a chunk taken from resp.iter_content *)
| EvClose                              (* resp.close() *)
| EvPrint (msg : LogMsg)               (* print(...) *)
| EvMakedirs (path : string)           (* os.makedirs(path, exist_ok=True) *)
| EvWrite (path content : string).     (* open(path, "w") and the writes to it *)

Inductive exn : Type :=
| RuntimeError (msg : string)
| ChunkedEncodingError.    (* a [requests] exception out of a body stream *)

Inductive result (A : Type) : Type :=
| Ret (a : A)
| Raise (e : exn).
Arguments Ret {A} a.
Arguments Raise {A} e.

(** The outcome of running a computation: its result, the number of
    requests issued when it ends, and the events it performed. *)
Record Run (A : Type) : Type := MkRun {
  res : result A;
  clock : nat;
  trace : list Event
}.
Arguments MkRun {A} res clock trace.
Arguments res {A} r.
Arguments clock {A} r.
Arguments trace {A} r.

(** A computation, started when [t] requests have been issued. *)
Definition M (A : Type) : Type := nat → Run A.

#[global] Instance M_ret : MRet M := λ A a t, MkRun (Ret a) t [].

#[global] Instance M_bind : MBind M := λ A B f m t,
  let r := m t in
  match res r with
  | Ret a => let r' := f a (clock r) in
             MkRun (res r') (clock r') (trace r ++ trace r')
  | Raise e => MkRun (Raise e) (clock r) (trace r)
  end.

Definition emit (e : Event) : M unit := λ t, MkRun (Ret tt) t [e].
Definition raise {A} (e : exn) : M A := λ t, MkRun (Raise e) t [].
Definition print (msg : LogMsg) : M unit := emit (EvPrint msg).

(** The files after the events of a trace, from the files before it. *)
Definition apply_event (fs : gmap string string) (e : Event) : gmap string string :=
  match e with
  | EvWrite path content => <[path := content]> fs
  | _ => fs
  end.

Definition replay (tr : list Event) (fs : gmap string string) : gmap string string :=
  foldl apply_event fs tr.

(** The files written by a trace, in order. *)
Definition writes (tr : list Event) : list (string * string) :=
  omap (λ e, match e with EvWrite p c => Some (p, c) | _ => None end) tr.

(** The chunks read from body streams by a trace. *)
Definition chunks_read (tr : list Event) : list (list byte) :=
  omap (λ e, match e with EvChunk c => Some c | _ => None end) tr.

(** [os.path.join(OUT_DIR, f"{num}.txt")] *)
Definition out_file (num : nat) : string :=
  OUT_DIR +:+ "/" +:+ pretty num +:+ ".txt".

(** [f"{num}\t{url}"] *)
Definition index_line (num : nat) (url : string) : string :=
  pretty num +:+ String (ascii_of_N 9) url.

Definition nl : string := String Re.newline EmptyString.

(** ["\n".join(index_lines) + ("\n" if index_lines else "")] *)
Definition index_text (index_lines : list string) : string :=
  Str.join nl index_lines +:+ (match index_lines with [] => "" | _ => nl end).

Section Crawler.

(** The site: the answer to the [t]-th request when it asks for [url]. *)
Variable server : nat → string → Response.

(** [raw.decode(encoding, errors="replace")]; [None] when it raises (an
    encoding name Python does not know). *)
Variable decode : string → list byte → option string.

(** [raw.decode("utf-8", errors="replace")] of the except branch. *)
Variable decode_utf8 : list byte → string.

(** The [href] values of the [a] elements that BeautifulSoup finds in a
    document, in document order. *)
Variable anchors_href : string → list string.

(** [urllib.parse.urljoin] *)
Variable urljoin : string → string → string.

Definition polite_sleep : M unit := emit EvSleep.

Definition session_get (url : string) : M Response :=
  λ t, MkRun (Ret (server t url)) (S t) [EvGet url].

Definition len (chunk : list byte) : Z := Z.of_nat (length chunk).

(** The [for chunk in resp.iter_content(...)] loop of [fetch_html], on a
    stream that ends: [None] when it returns from inside the loop (too
    large), otherwise the chunks kept. *)
Fixpoint iter_content (url : string) (stream chunks : list (list byte)) (total : Z)
  : M (option (list (list byte))) :=
  match stream with
  | [] => mret (Some chunks)
  | chunk :: stream' =>
      emit (EvChunk chunk) ;;
      match chunk with
      | [] => iter_content url stream' chunks total
      | _ =>
          let total := (total + len chunk)%Z in
          if (MAX_BYTES <? total)%Z
          then print (SkipTooLarge url) ;; mret None
          else iter_content url stream' (chunks ++ [chunk]) total
      end
  end.

Definition fetch_html (url : string) : M (option string) :=
  polite_sleep ;;
  resp ← session_get url;
  match resp with
  | RequestException => print (SkipRequestError url) ;; mret None
  | Resp content_type body encoding =>
      let ctype := Str.lower (default "" content_type) in
      if negb (Str.contains "text/html" ctype)
      then emit EvClose ;; print (SkipNotHtml url ctype) ;; mret None
      else
        got ← iter_content url body [] 0%Z;
        emit EvClose ;;
        match got with
        | None => mret None
        | Some chunks =>
            let raw := concat chunks in
            let encoding :=
              match encoding with
              | Some e => if Str.truthy e then e else "utf-8"
              | None => "utf-8"
              end in
            mret (Some (match decode encoding raw with
                        | Some text => text
                        | None => decode_utf8 raw
                        end))
        end
  end.

Definition extract_links (html base_url : string) : list string :=
  omap (λ h, let href := Str.strip h in
             if Str.truthy href then Some (urljoin base_url href) else None)
       (anchors_href html).

(** The order-preserving removal of repeats at the end of
    [get_author_pages]. *)
Fixpoint uniq_loop (author_pages : list string) (seen : gset string)
    (uniq : list string) : list string :=
  match author_pages with
  | [] => uniq
  | u :: rest =>
      if decide (u ∈ seen) then uniq_loop rest seen uniq
      else uniq_loop rest ({[u]} ∪ seen) (uniq ++ [u])
  end.

Definition seed_error : exn := RuntimeError "author.html could not be downloaded".

Definition get_author_pages : M (list string) :=
  html ← fetch_html AUTHORS_PAGE;
  match html with
  | Some html =>
      if Str.truthy html then
        let links := extract_links html AUTHORS_PAGE in
        let author_pages := filter (λ u, is_author_page u = true) links in
        mret (uniq_loop author_pages ∅ [])
      else raise seed_error
  | None => raise seed_error
  end.

(** The inner loop of [collect_text_page_urls] over the links of one
    page. *)
Fixpoint collect_links (limit : Z) (links collected : list string)
    (seen : gset string) : list string * gset string :=
  match links with
  | [] => (collected, seen)
  | u :: rest =>
      if is_text_page u then
        if decide (u ∈ seen) then collect_links limit rest collected seen
        else
          let seen := {[u]} ∪ seen in
          let collected := collected ++ [u] in
          if (limit <=? Z.of_nat (length collected))%Z then (collected, seen)
          else collect_links limit rest collected seen
      else collect_links limit rest collected seen
  end.

(** The outer loop, over [enumerate(author_pages, start=i)]. *)
Fixpoint collect_authors (limit : Z) (i : nat) (author_pages collected : list string)
    (seen : gset string) : M (list string) :=
  match author_pages with
  | [] => mret collected
  | author_url :: rest =>
      if (limit <=? Z.of_nat (length collected))%Z then mret collected
      else
        let all_works_url := author_to_all_works_url author_url in
        html ← fetch_html all_works_url;
        match html with
        | Some html =>
            if Str.truthy html then
              let links := extract_links html all_works_url in
              let '(collected, seen) := collect_links limit links collected seen in
              (if (i mod 10 =? 0)%nat
               then print (InfoProcessed i (length collected)) else mret tt) ;;
              collect_authors limit (S i) rest collected seen
            else collect_authors limit (S i) rest collected seen
        | None => collect_authors limit (S i) rest collected seen
        end
  end.

Definition collect_text_page_urls (limit : Z) : M (list string) :=
  author_pages ← get_author_pages;
  print (InfoAuthorsFound (length author_pages)) ;;
  collect_authors limit 1 author_pages [] ∅.

Definition save_text (path content : string) : M unit :=
  emit (EvWrite path content).

(** The loop of [download_pages]; it gives [saved] and [index_lines]. *)
Fixpoint download_loop (need : Z) (urls : list string) (saved : nat)
    (index_lines : list string) : M (nat * list string) :=
  match urls with
  | [] => mret (saved, index_lines)
  | url :: rest =>
      if (need <=? Z.of_nat saved)%Z then mret (saved, index_lines)
      else
        html ← fetch_html url;
        match html with
        | Some html =>
            if Str.truthy html then
              if (String.length html <? 1000)%nat then
                print (SkipTooSmall url) ;;
                download_loop need rest saved index_lines
              else
                let num := (saved + 1)%nat in
                save_text (out_file num) html ;;
                print (SavedOk num url) ;;
                download_loop need rest (saved + 1)%nat
                              (index_lines ++ [index_line num url])
            else download_loop need rest saved index_lines
        | None => download_loop need rest saved index_lines
        end
  end.

Definition download_pages (urls : list string) (need : Z) : M nat :=
  emit (EvMakedirs OUT_DIR) ;;
  '(saved, index_lines) ← download_loop need urls 0%nat [];
  emit (EvWrite INDEX_TXT (index_text index_lines)) ;;
  mret saved.

Definition urls_text (urls : list string) : string :=
  foldr (λ u acc, u +:+ nl +:+ acc) "" urls.

Definition main : M unit :=
  urls ← collect_text_page_urls 1200;
  emit (EvWrite URLS_TXT (urls_text urls)) ;;
  print (InfoUrlsSaved (length urls)) ;;
  saved ← download_pages urls MIN_PAGES_TO_DOWNLOAD;
  if (Z.of_nat saved <? MIN_PAGES_TO_DOWNLOAD)%Z
  then print (DoneShortfall saved)
  else print (DoneComplete saved).

End Crawler.

(** ** What the loops are expected to compute *)

Section Expected.

Variable server : nat → string → Response.
Variable decode : string → list byte → option string.
Variable decode_utf8 : list byte → string.
Variable anchors_href : string → list string.
Variable urljoin : string → string → string.

(** The value [fetch_html url] returns when [t] requests have been issued
    before it. *)
Definition fetched (t : nat) (url : string) : option string :=
  match res (fetch_html server decode decode_utf8 url t) with
  | Ret v => v
  | Raise _ => None
  end.

(** The fetch is Ok: it returns a body, and the body is not empty. *)
Definition page (t : nat) (url : string) : option string :=
  match fetched t url with
  | Some html => if Str.truthy html then Some html else None
  | None => None
  end.

(** The URL qualifies: its fetch is Ok and the body has at least the
    minimum length. *)
Definition qualifies (t : nat) (url : string) : option string :=
  match page t url with
  | Some html => if (String.length html <? 1000)%nat then None else Some html
  | None => None
  end.

(** The qualifying URLs of a list, each with its body, when the first URL
    of the list is fetched as request [t], the next as request [t + 1], and
    so on. *)
Fixpoint qualifying (t : nat) (urls : list string) : list (string * string) :=
  match urls with
  | [] => []
  | url :: rest =>
      match qualifies t url with
      | Some html => (url, html) :: qualifying (S t) rest
      | None => qualifying (S t) rest
      end
  end.

(** The document files and the index lines of a list of saved pages that
    get the sequence numbers from [first] on. *)
Definition documents (first : nat) (pages : list (string * string))
  : list (string * string) :=
  zip_with (λ num p, (out_file num, p.2)) (seq first (length pages)) pages.

Definition index_lines_of (first : nat) (pages : list (string * string))
  : list string :=
  zip_with (λ num p, index_line num p.1) (seq first (length pages)) pages.

(** The text-page links found on the works pages of a list of authors, in
    the order of discovery, when the first works page is fetched as request
    [t]; an author whose page is not Ok gives none. *)
Fixpoint discovered (t : nat) (author_pages : list string) : list string :=
  match author_pages with
  | [] => []
  | author_url :: rest =>
      let all_works_url := author_to_all_works_url author_url in
      match page t all_works_url with
      | Some html =>
          filter (λ u, is_text_page u = true)
                 (extract_links anchors_href urljoin html all_works_url)
      | None => []
      end ++ discovered (S t) rest
  end.

(** Number of URLs the download loop fetches when [n] pages are still to
    be saved: it stops at the end of the list, or as soon as none is. *)
Fixpoint visited (n t : nat) (urls : list string) : nat :=
  match urls, n with
  | [], _ | _, O => O
  | url :: rest, S n' =>
      S (visited (if qualifies t url is Some _ then n' else n) (S t) rest)
  end.

(** A list without its repeats, every element at its first position. *)
Fixpoint first_seen (acc xs : list string) : list string :=
  match xs with
  | [] => acc
  | x :: xs' =>
      if decide (x ∈ acc) then first_seen acc xs'
      else first_seen (acc ++ [x]) xs'
  end.

(** The author pages of the seed page. *)
Definition seed_authors (html : string) : list string :=
  first_seen [] (filter (λ u, is_author_page u = true)
                        (extract_links anchors_href urljoin html AUTHORS_PAGE)).

(** The response declares HTML. *)
Definition declares_html (content_type : option string) : bool :=
  Str.contains "text/html" (Str.lower (default "" content_type)).

(** Size of a body: the bytes of all its chunks. *)
Definition total_bytes (body : list (list byte)) : Z :=
  foldr (λ chunk acc, (len chunk + acc)%Z) 0%Z body.

(** The text of a body that was read to its end. *)
Definition decode_body (encoding : option string) (raw : list byte) : string :=
  let encoding :=
    match encoding with
    | Some e => if Str.truthy e then e else "utf-8"
    | None => "utf-8"
    end in
  match decode encoding raw with
  | Some text => text
  | None => decode_utf8 raw
  end.

End Expected.

(** Every line followed by a newline. *)
Definition unlines (lines : list string) : string :=
  foldr (λ l acc, l +:+ nl +:+ acc) "" lines.

(** The character [c] does not occur in [s]. *)
Fixpoint lacks (c : ascii) (s : string) : bool :=
  match s with
  | EmptyString => true
  | String a s' => negb (Ascii.eqb a c) && lacks c s'
  end.

(** The author-index URL of a slug, with its scheme and domain, and the
    works-list URL of the same slug. *)
Definition author_url (secure www : bool) (slug : string) : string :=
  "http" +:+ (if secure then "s" else "") +:+ "://" +:+ (if www then "www." else "")
  +:+ "ilibrary.ru/author/" +:+ slug +:+ "/index.html".

Definition works_url (secure www : bool) (slug : string) : string :=
  "http" +:+ (if secure then "s" else "") +:+ "://" +:+ (if www then "www." else "")
  +:+ "ilibrary.ru/author/" +:+ slug +:+ "/l.all/index.html".

(** The URL with its trailing [/index.html] replaced by
    [/l.all/index.html] and the rest unchanged. *)
Definition trailing_replaced (url : string) : string :=
  String.substring 0 (String.length url - String.length "/index.html") url
  +:+ "/l.all/index.html".

(** Index durability as a property of a trace: whenever the process stops,
    every document written so far has its line in an index written so
    far. *)
Definition index_durable (tr : list Event) : Prop :=
  ∀ p, p `prefix_of` tr →
    ∀ num html, (out_file num, html) ∈ writes p →
      ∃ content url,
        (INDEX_TXT, content) ∈ writes p
        ∧ Str.contains (index_line num url) content = true.

(** ** Further notions on traces *)

(** The URLs requested by a trace, in order. *)
Definition gets (tr : list Event) : list string :=
  omap (λ e, match e with EvGet url => Some url | _ => None end) tr.

(** Number of responses closed by a trace. *)
Definition closes (tr : list Event) : nat :=
  length (omap (λ e, match e with EvClose => Some tt | _ => None end) tr).

(** The governed delay: every request comes right after a delay, and
    every delay is followed at once by a request. *)
Definition governed (tr : list Event) : Prop :=
  (∀ i url, tr !! i = Some (EvGet url) →
     ∃ j, i = S j ∧ tr !! j = Some EvSleep)
  ∧ (∀ i, tr !! i = Some EvSleep → ∃ url, tr !! S i = Some (EvGet url)).

(** A computation keeps the pace: its trace is governed, and the request
    counter counts its requests. *)
Definition paced {A} (m : M A) : Prop :=
  ∀ t, governed (trace (m t))
       ∧ clock (m t) = (t + length (gets (trace (m t))))%nat.

(** The string has white space only (or nothing). *)
Fixpoint blank (s : string) : bool :=
  match s with
  | EmptyString => true
  | String c s' => Str.is_space c && blank s'
  end.

(** ** The strings of a regular expression *)

(** [Matches r s]: the string [s] is in the language of [r]. *)
Inductive Matches : Re.regex → string → Prop :=
| MEps : Matches Re.Eps ""
| MChr c : Matches (Re.Chr c) (String c "")
| MDigit a : Re.is_digit a = true → Matches Re.Digit (String a "")
| MNotChr c a : a ≠ c → Matches (Re.NotChr c) (String a "")
| MCat r1 r2 s1 s2 :
    Matches r1 s1 → Matches r2 s2 → Matches (Re.Cat r1 r2) (s1 +:+ s2)
| MAltL r1 r2 s : Matches r1 s → Matches (Re.Alt r1 r2) s
| MAltR r1 r2 s : Matches r2 s → Matches (Re.Alt r1 r2) s
| MStarNil r : Matches (Re.Star r) ""
| MStarApp r s1 s2 :
    Matches r s1 → Matches (Re.Star r) s2 → Matches (Re.Star r) (s1 +:+ s2).

(** The string is made of decimal digits. *)
Fixpoint all_digits (s : string) : bool :=
  match s with
  | EmptyString => true
  | String a s' => Re.is_digit a && all_digits s'
  end.

(** The text-page URL of a text and a page number, with its scheme and
    domain. *)
Definition text_url (secure www : bool) (id page : string) : string :=
  "http" +:+ (if secure then "s" else "") +:+ "://" +:+ (if www then "www." else "")
  +:+ "ilibrary.ru/text/" +:+ id +:+ "/p." +:+ page +:+ "/index.html".

(** ** The document identifier of the second stage (task2/tokens_lemmas.py) *)

(** [os.path.basename] on POSIX: what follows the last slash. *)
Fixpoint basename (path : string) : string :=
  match path with
  | EmptyString => EmptyString
  | String c rest =>
      if lacks "/" rest then (if Ascii.eqb c "/" then rest else path)
      else basename rest
  end.

(** The root that [os.path.splitext] gives for a name without slashes: the
    name up to its last dot, when a character other than a dot comes before
    that dot; the whole name otherwise.  [before] tells whether such a
    character has been passed. *)
Fixpoint splitext_root_from (before : bool) (name : string) : string :=
  match name with
  | EmptyString => EmptyString
  | String c rest =>
      if Ascii.eqb c "." && before && lacks "." rest then EmptyString
      else String c (splitext_root_from (before || negb (Ascii.eqb c ".")) rest)
  end.

Definition splitext_root (name : string) : string := splitext_root_from false name.

(** [file_id_from_path]: both branches of the test on [\d+] return the
    stem. *)
Definition file_id_from_path (path : string) : string :=
  let stem := splitext_root (basename path) in
  if Re.fullmatch (Re.plus Re.Digit) stem then stem else stem.

(** ** Body streams that break *)

(** [try: body finally: handler]: the handler runs whether the body returns
    or raises, and the outcome is that of the body (unless the handler
    raises). *)
Definition finally {A} (body : M A) (handler : M unit) : M A := λ t,
  let r := body t in
  let h := handler (clock r) in
  MkRun (match res h with Ret _ => res r | Raise e => Raise e end)
        (clock h) (trace r ++ trace h).

(** The crawler on a network whose body streams can break.  The functions
    above are the crawler on a network whose streams all end (and Lemma
    [main_undisturbed] shows that the two agree there); here
    [resp.iter_content] may raise once it has delivered the chunks of the
    body, and nothing in the crawler catches that. *)
Module Stream.
Section Crawler.

Variable server : nat → string → Response.

(** [breaks t url]: the body stream of the response to the [t]-th request,
    when it asks for [url], raises after the chunks of its body (the
    connection is lost, the chunked encoding is invalid) instead of
    ending. *)
Variable breaks : nat → string → bool.

Variable decode : string → list byte → option string.
Variable decode_utf8 : list byte → string.
Variable anchors_href : string → list string.
Variable urljoin : string → string → string.

(** The response, and whether its stream breaks. *)
Definition session_get (url : string) : M (Response * bool) :=
  λ t, MkRun (Ret (server t url, breaks t url)) (S t) [EvGet url].

(** The [for chunk in resp.iter_content(...)] loop: at the end of the
    chunks the iterator stops, or raises when the stream is broken. *)
Fixpoint iter_content (url : string) (stream : list (list byte)) (broken : bool)
    (chunks : list (list byte)) (total : Z) : M (option (list (list byte))) :=
  match stream with
  | [] => if broken then raise ChunkedEncodingError else mret (Some chunks)
  | chunk :: stream' =>
      emit (EvChunk chunk) ;;
      match chunk with
      | [] => iter_content url stream' broken chunks total
      | _ =>
          let total := (total + len chunk)%Z in
          if (MAX_BYTES <? total)%Z
          then print (SkipTooLarge url) ;; mret None
          else iter_content url stream' broken (chunks ++ [chunk]) total
      end
  end.

(** The loop is in [try: ... finally: resp.close()], with no [except]: an
    exception of the iterator closes the response and goes on to the
    caller. *)
Definition fetch_html (url : string) : M (option string) :=
  polite_sleep ;;
  '(resp, broken) ← session_get url;
  match resp with
  | RequestException => print (SkipRequestError url) ;; mret None
  | Resp content_type body encoding =>
      let ctype := Str.lower (default "" content_type) in
      if negb (Str.contains "text/html" ctype)
      then emit EvClose ;; print (SkipNotHtml url ctype) ;; mret None
      else
        got ← finally (iter_content url body broken [] 0%Z) (emit EvClose);
        match got with
        | None => mret None
        | Some chunks =>
            let raw := concat chunks in
            let encoding :=
              match encoding with
              | Some e => if Str.truthy e then e else "utf-8"
              | None => "utf-8"
              end in
            mret (Some (match decode encoding raw with
                        | Some text => text
                        | None => decode_utf8 raw
                        end))
        end
  end.

Definition get_author_pages : M (list string) :=
  html ← fetch_html AUTHORS_PAGE;
  match html with
  | Some html =>
      if Str.truthy html then
        let links := extract_links anchors_href urljoin html AUTHORS_PAGE in
        let author_pages := filter (λ u, is_author_page u = true) links in
        mret (uniq_loop author_pages ∅ [])
      else raise seed_error
  | None => raise seed_error
  end.

Fixpoint collect_authors (limit : Z) (i : nat) (author_pages collected : list string)
    (seen : gset string) : M (list string) :=
  match author_pages with
  | [] => mret collected
  | author_url :: rest =>
      if (limit <=? Z.of_nat (length collected))%Z then mret collected
      else
        let all_works_url := author_to_all_works_url author_url in
        html ← fetch_html all_works_url;
        match html with
        | Some html =>
            if Str.truthy html then
              let links := extract_links anchors_href urljoin html all_works_url in
              let '(collected, seen) := collect_links limit links collected seen in
              (if (i mod 10 =? 0)%nat
               then print (InfoProcessed i (length collected)) else mret tt) ;;
              collect_authors limit (S i) rest collected seen
            else collect_authors limit (S i) rest collected seen
        | None => collect_authors limit (S i) rest collected seen
        end
  end.

Definition collect_text_page_urls (limit : Z) : M (list string) :=
  author_pages ← get_author_pages;
  print (InfoAuthorsFound (length author_pages)) ;;
  collect_authors limit 1 author_pages [] ∅.

Fixpoint download_loop (need : Z) (urls : list string) (saved : nat)
    (index_lines : list string) : M (nat * list string) :=
  match urls with
  | [] => mret (saved, index_lines)
  | url :: rest =>
      if (need <=? Z.of_nat saved)%Z then mret (saved, index_lines)
      else
        html ← fetch_html url;
        match html with
        | Some html =>
            if Str.truthy html then
              if (String.length html <? 1000)%nat then
                print (SkipTooSmall url) ;;
                download_loop need rest saved index_lines
              else
                let num := (saved + 1)%nat in
                save_text (out_file num) html ;;
                print (SavedOk num url) ;;
                download_loop need rest (saved + 1)%nat
                              (index_lines ++ [index_line num url])
            else download_loop need rest saved index_lines
        | None => download_loop need rest saved index_lines
        end
  end.

Definition download_pages (urls : list string) (need : Z) : M nat :=
  emit (EvMakedirs OUT_DIR) ;;
  '(saved, index_lines) ← download_loop need urls 0%nat [];
  emit (EvWrite INDEX_TXT (index_text index_lines)) ;;
  mret saved.

Definition main : M unit :=
  urls ← collect_text_page_urls 1200;
  emit (EvWrite URLS_TXT (urls_text urls)) ;;
  print (InfoUrlsSaved (length urls)) ;;
  saved ← download_pages urls MIN_PAGES_TO_DOWNLOAD;
  if (Z.of_nat saved <? MIN_PAGES_TO_DOWNLOAD)%Z
  then print (DoneShortfall saved)
  else print (DoneComplete saved).

(** The fetch of [url] as request [t] is cut short: the response declares
    HTML, and its stream breaks before more than [MAX_BYTES] bytes have
    come. *)
Definition cut_short (t : nat) (url : string) : bool :=
  match server t url with
  | RequestException => false
  | Resp content_type body _ =>
      declares_html content_type && breaks t url
      && (total_bytes body <=? MAX_BYTES)%Z
  end.

End Crawler.
End Stream.

(** The closing reports of [main] in a trace. *)
Definition reports (tr : list Event) : list LogMsg :=
  omap (λ e, match e with
             | EvPrint (DoneShortfall n) => Some (DoneShortfall n)
             | EvPrint (DoneComplete n) => Some (DoneComplete n)
             | _ => None
             end) tr.

(** [cut_off m' m]: from every start, [m'] does what [m] does, or it raises
    the error of a broken stream after the first events of [m], the last
    of them the close of a response. *)
Definition cut_off {A} (m' m : M A) : Prop :=
  ∀ t, m' t = m t
       ∨ (res (m' t) = Raise ChunkedEncodingError
          ∧ trace (m' t) `prefix_of` trace (m t)
          ∧ last (trace (m' t)) = Some EvClose).

(** The computation prints no closing report. *)
Definition unreported {A} (m : M A) : Prop := ∀ t, reports (trace (m t)) = [].

Section Stops.
Variable server : nat → string → Response.
Variable breaks : nat → string → bool.

(** The computation stops at a broken stream: the request counter counts
    its requests; a request that is cut short is its last, and makes it
    raise; and it raises the error of a broken stream only so. *)
Definition stops_at_break {A} (m : M A) : Prop :=
  ∀ t,
    clock (m t) = (t + length (gets (trace (m t))))%nat
    ∧ (∀ i url, gets (trace (m t)) !! i = Some url →
         Stream.cut_short server breaks (t + i) url = true →
         res (m t) = Raise ChunkedEncodingError
         ∧ length (gets (trace (m t))) = S i)
    ∧ (res (m t) = Raise ChunkedEncodingError →
       ∃ i url, gets (trace (m t)) !! i = Some url
                ∧ Stream.cut_short server breaks (t + i) url = true).
End Stops.

(** [s.isascii()]: every code point is below 128. *)
Fixpoint isascii (s : string) : bool :=
  match s with
  | EmptyString => true
  | String c s' => (Str.code c <? 128)%N && isascii s'
  end.

(** ** A small site, to run the crawler on *)

Module Site.

(** A codec that takes every byte for the code point of the same number
    (Latin-1), under every encoding name. *)
Definition decode (encoding : string) (raw : list byte) : option string :=
  Some (string_of_list_byte raw).

Definition decode_utf8 (raw : list byte) : string := string_of_list_byte raw.

(** Documents are the references of their anchors, separated by spaces. *)
Definition anchors_href (html : string) : list string := String.words html.

(** All references are absolute. *)
Definition urljoin (base href : string) : string := href.

Definition html_type : option string := Some "text/html; charset=utf-8".

(** A body of [n] bytes in one chunk. *)
Definition body (n : nat) : list (list byte) := [repeat "x"%byte n].

(** A body of 1221 chunks of 4096 bytes: 5 001 216 bytes. *)
Definition big_body : list (list byte) := repeat (repeat "x"%byte 4096) 1221.

(** A body that holds a text. *)
Definition text_body (text : string) : list (list byte) := [list_byte_of_string text].

Definition author (slug : string) : string :=
  "https://ilibrary.ru/author/" +:+ slug +:+ "/index.html".

Definition works (slug : string) : string :=
  "https://ilibrary.ru/author/" +:+ slug +:+ "/l.all/index.html".

Definition text (id : string) : string :=
  "https://ilibrary.ru/text/" +:+ id +:+ "/p.1/index.html".

(** Scenario A: the seed page lists three authors; the works page of the
    first gives two text pages and one of them again, the second author
    cannot be reached, the third gives a page already seen and two new
    ones.  Scenario B: the URLs [u1] to [u5], of which the third is not
    HTML and the fifth a stub. *)
Definition server (t : nat) (url : string) : Response :=
  if String.eqb url AUTHORS_PAGE then
    Resp html_type
         (text_body (author "a" +:+ " /about.html " +:+ author "b" +:+ " "
                     +:+ author "a" +:+ " " +:+ author "c"))
         None
  else if String.eqb url (works "a") then
    Resp html_type (text_body (text "1" +:+ " " +:+ text "2" +:+ " " +:+ text "1")) None
  else if String.eqb url (works "c") then
    Resp html_type
         (text_body (text "2" +:+ " " +:+ text "3" +:+ " " +:+ works "c" +:+ " "
                     +:+ text "4"))
         None
  else if String.eqb url "u1" then Resp html_type (body 1000) None
  else if String.eqb url "u2" then Resp (Some "Text/HTML") ([] :: body 1200) (Some "")
  else if String.eqb url "u3" then Resp (Some "image/png") (body 1000) None
  else if String.eqb url "u4" then Resp html_type (body 1000) None
  else if String.eqb url "u5" then Resp html_type (body 999) None
  else if String.eqb url "empty" then Resp html_type [] None
  else if String.eqb url "big" then Resp html_type big_body None
  else RequestException.

Definition urls : list string := ["u1"; "u2"; "u3"; "u4"; "u5"].

(** Scenario C: the site of scenario A, where the stream of the works page
    of the first author breaks.  Scenario D: the same site, where the
    streams break from the fifth request on, and also that of the page that
    is too large anyway. *)
Definition breaks (t : nat) (url : string) : bool := String.eqb url (works "a").

Definition breaks_late (t : nat) (url : string) : bool :=
  (4 <=? t)%nat || String.eqb url "big".

End Site.

(** ** The model at work *)

Example re_text_ok :
  is_text_page "https://ilibrary.ru/text/475/p.1/index.html" = true.
Proof. reflexivity. Qed.

Example re_text_no_digits :
  is_text_page "https://ilibrary.ru/text//p.1/index.html" = false.
Proof. reflexivity. Qed.

Example re_text_suffix :
  is_text_page "https://ilibrary.ru/text/475/p.1/index.htmlx" = false.
Proof. reflexivity. Qed.

Example re_author_ok :
  is_author_page "http://www.ilibrary.ru/author/chekhov/index.html" = true.
Proof. reflexivity. Qed.

Example re_author_slash :
  is_author_page "https://ilibrary.ru/author/a/b/index.html" = false.
Proof. reflexivity. Qed.

Example all_works_chekhov :
  author_to_all_works_url "https://ilibrary.ru/author/chekhov/index.html"
  = "https://ilibrary.ru/author/chekhov/l.all/index.html".
Proof. reflexivity. Qed.

Example replace_no_overlap : Str.replace "aaaa" "aa" "b" = "bb".
Proof. reflexivity. Qed.

Example replace_empty_old : Str.replace "abc" "" "-" = "-a-b-c-".
Proof. reflexivity. Qed.

Example strip_both : Str.strip "  /a b " = "/a b".
Proof. reflexivity. Qed.

Example scenario_b :
  let r := download_pages Site.server Site.decode Site.decode_utf8 Site.urls 3 0 in
  res r = Ret 3%nat
  ∧ clock r = 4%nat
  ∧ (writes (trace r)).*1
    = ["./task1/dump/1.txt"; "./task1/dump/2.txt"; "./task1/dump/3.txt";
       "./task1/index.txt"].
Proof. vm_compute. done. Qed.

Example scenario_c :
  qualifies Site.server Site.decode Site.decode_utf8 0 "u5" = None
  ∧ res (download_pages Site.server Site.decode Site.decode_utf8 ["u5"] 3 0) = Ret 0%nat.
Proof. vm_compute. done. Qed.

(** ** Running the computations *)

(** *** Steps of a computation *)

Lemma bind_run {A B} (m : M A) (f : A → M B) t a t' tr :
  m t = MkRun (Ret a) t' tr →
  (m ≫= f) t = MkRun (res (f a t')) (clock (f a t')) (tr ++ trace (f a t')).
Proof. intros H. unfold mbind, M_bind. by rewrite H. Qed.

Lemma bind_res {A B} (m : M A) (f : A → M B) t a :
  res (m t) = Ret a →
  (m ≫= f) t = MkRun (res (f a (clock (m t)))) (clock (f a (clock (m t))))
                     (trace (m t) ++ trace (f a (clock (m t)))).
Proof. intros H. unfold mbind, M_bind. by rewrite H. Qed.

Lemma bind_raise {A B} (m : M A) (f : A → M B) t e t' tr :
  m t = MkRun (Raise e) t' tr → (m ≫= f) t = MkRun (Raise e) t' tr.
Proof. intros H. unfold mbind, M_bind. by rewrite H. Qed.

Lemma emit_bind {B} (e : Event) (k : M B) t :
  (emit e ;; k) t = MkRun (res (k t)) (clock (k t)) (e :: trace (k t)).
Proof. reflexivity. Qed.

Lemma writes_app tr1 tr2 : writes (tr1 ++ tr2) = writes tr1 ++ writes tr2.
Proof. unfold writes. apply omap_app. Qed.

Lemma chunks_read_app tr1 tr2 :
  chunks_read (tr1 ++ tr2) = chunks_read tr1 ++ chunks_read tr2.
Proof. unfold chunks_read. apply omap_app. Qed.

Lemma total_bytes_nonneg body : (0 ≤ total_bytes body)%Z.
Proof.
  induction body as [|c body IH]; [done|].
  cbn [total_bytes foldr]. fold (total_bytes body). unfold len. lia.
Qed.

(** *** Document files and index lines *)

Lemma documents_cons first u h pages :
  documents first ((u, h) :: pages) = (out_file first, h) :: documents (S first) pages.
Proof. reflexivity. Qed.

Lemma index_lines_of_cons first u h pages :
  index_lines_of first ((u, h) :: pages)
  = index_line first u :: index_lines_of (S first) pages.
Proof. reflexivity. Qed.

Lemma out_file_not_index num : out_file num ≠ INDEX_TXT.
Proof. unfold out_file, INDEX_TXT, OUT_DIR. cbn. discriminate. Qed.

Lemma list_ascii_app s1 s2 :
  list_ascii_of_string (s1 +:+ s2)
  = list_ascii_of_string s1 ++ list_ascii_of_string s2.
Proof.
  induction s1 as [|c s1 IH]; [done|].
  change (String c s1 +:+ s2) with (String c (s1 +:+ s2)). cbn. by rewrite IH.
Qed.

Lemma string_app_inj_r s s1 s2 : s1 +:+ s = s2 +:+ s → s1 = s2.
Proof.
  intros H. apply (f_equal list_ascii_of_string) in H.
  rewrite !list_ascii_app in H. apply app_inv_tail in H.
  apply (f_equal string_of_list_ascii) in H.
  by rewrite !string_of_list_ascii_of_string in H.
Qed.

Lemma out_file_inj m n : out_file m = out_file n → m = n.
Proof.
  unfold out_file. intros H.
  apply (inj (String.app OUT_DIR)) in H.
  apply (inj (String.app "/")) in H.
  apply string_app_inj_r in H.
  by apply (inj pretty) in H.
Qed.

Lemma out_files_NoDup first k : NoDup (out_file <$> seq first k).
Proof.
  apply NoDup_fmap_2; [|apply NoDup_seq].
  intros m n. apply out_file_inj.
Qed.

Lemma documents_names first pages :
  (documents first pages).*1 = out_file <$> seq first (length pages).
Proof.
  revert first. induction pages as [|[u h] pages IH]; intros first; [done|].
  rewrite documents_cons. cbn. f_equal. apply IH.
Qed.

Lemma documents_lookup first pages i p :
  pages !! i = Some p → documents first pages !! i = Some (out_file (first + i), p.2).
Proof.
  revert first i. induction pages as [|[u h] pages IH]; intros first [|i] Hp; try done.
  - cbn in Hp. injection Hp as <-. rewrite documents_cons, Nat.add_0_r. done.
  - rewrite documents_cons. replace (first + S i)%nat with (S first + i)%nat by lia.
    exact (IH (S first) i Hp).
Qed.

Lemma index_lines_of_lookup first pages i p :
  pages !! i = Some p →
  index_lines_of first pages !! i = Some (index_line (first + i) p.1).
Proof.
  revert first i. induction pages as [|[u h] pages IH]; intros first [|i] Hp; try done.
  - cbn in Hp. injection Hp as <-. rewrite index_lines_of_cons, Nat.add_0_r. done.
  - rewrite index_lines_of_cons. replace (first + S i)%nat with (S first + i)%nat by lia.
    exact (IH (S first) i Hp).
Qed.

Lemma index_lines_of_length first pages :
  length (index_lines_of first pages) = length pages.
Proof.
  unfold index_lines_of. rewrite length_zip_with, length_seq. lia.
Qed.

Lemma string_app_assoc s1 s2 s3 : (s1 +:+ s2) +:+ s3 = s1 +:+ (s2 +:+ s3).
Proof.
  induction s1 as [|c s1 IH]; [done|].
  change ((String c s1 +:+ s2) +:+ s3) with (String c ((s1 +:+ s2) +:+ s3)).
  change (String c s1 +:+ (s2 +:+ s3)) with (String c (s1 +:+ (s2 +:+ s3))).
  by rewrite IH.
Qed.

Lemma index_text_unlines lines : index_text lines = unlines lines.
Proof.
  unfold index_text. induction lines as [|l [|l' lines] IH]; [done|done|].
  change (unlines (l :: l' :: lines)) with (l +:+ nl +:+ unlines (l' :: lines)).
  rewrite <- IH.
  change (Str.join nl (l :: l' :: lines)) with (l +:+ nl +:+ Str.join nl (l' :: lines)).
  by rewrite !string_app_assoc.
Qed.

Lemma replay_app tr1 tr2 fs : replay (tr1 ++ tr2) fs = replay tr2 (replay tr1 fs).
Proof. unfold replay. apply foldl_app. Qed.

Lemma prefix_snoc_cases {A} (p l : list A) (x : A) :
  p `prefix_of` l ++ [x] → p `prefix_of` l ∨ p = l ++ [x].
Proof.
  intros [ext Hext]. destruct ext as [|y ext _] using rev_ind.
  - right. by rewrite app_nil_r in Hext.
  - left. rewrite app_assoc in Hext. apply app_inj_tail in Hext as [-> _].
    by eexists.
Qed.

Lemma writes_prefix p tr : p `prefix_of` tr → writes p `prefix_of` writes tr.
Proof. intros [ext ->]. rewrite writes_app. by eexists. Qed.

(** *** The replacement in the author URL *)

Lemma app_String c s1 s2 : String c s1 +:+ s2 = String c (s1 +:+ s2).
Proof. reflexivity. Qed.

(** A pattern without [c] that matches at the start of [s +:+ String c t]
    matches within [s]. *)
Lemma prefix_before_char c p s t :
  lacks c p = true →
  String.prefix p (s +:+ String c t) = String.prefix p s.
Proof.
  revert s. induction p as [|a p IH]; intros s Hp; [by destruct s|].
  cbn in Hp. apply andb_true_iff in Hp as [Hac Hp].
  destruct s as [|b s].
  - change ("" +:+ String c t) with (String c t). cbn.
    destruct (ascii_dec a c) as [->|Hne]; [|done].
    by rewrite Ascii.eqb_refl in Hac.
  - rewrite app_String. cbn. destruct (ascii_dec a b); [by apply IH|done].
Qed.

(** The scan passes over a stretch without the first character of [old]. *)
Lemma replace_scan_lacks c old new s tail :
  lacks c s = true →
  Str.replace_scan (String c old) new 0 (s +:+ tail)
  = s +:+ Str.replace_scan (String c old) new 0 tail.
Proof.
  induction s as [|a s IH]; intros Hs; [done|].
  cbn in Hs. apply andb_true_iff in Hs as [Hac Hs].
  rewrite !app_String. cbn [Str.replace_scan String.prefix].
  destruct (ascii_dec c a) as [->|Hne]; [by rewrite Ascii.eqb_refl in Hac|].
  by rewrite IH.
Qed.

Lemma app_Empty s : "" +:+ s = s.
Proof. reflexivity. Qed.

(** Where [old] does not start, the scan keeps the character. *)
Lemma replace_scan_keep old new c s :
  String.prefix old (String c s) = false →
  Str.replace_scan old new 0 (String c s) = String c (Str.replace_scan old new 0 s).
Proof. intros H. cbn [Str.replace_scan]. by rewrite H. Qed.

(** For a slug without slashes that does not begin with [index.html], the
    replacement gives the works-list URL of the slug. *)
Lemma works_url_of_plain_slug secure www slug :
  lacks "/" slug = true →
  String.prefix "index.html" slug = false →
  author_to_all_works_url (author_url secure www slug) = works_url secure www slug.
Proof.
  intros Hslash Hslug.
  assert (Hp : String.prefix "/index.html" (String "/" (slug +:+ "/index.html")) = false).
  { change (String.prefix "index.html" (slug +:+ String "/" "index.html") = false).
    by rewrite prefix_before_char. }
  assert (Hs : Str.replace_scan "/index.html" "/l.all/index.html" 0 (slug +:+ "/index.html")
               = slug +:+ "/l.all/index.html").
  { by rewrite replace_scan_lacks. }
  unfold author_to_all_works_url, Str.replace, author_url, works_url.
  destruct secure, www; rewrite !app_String, !app_Empty, ?app_String, ?app_Empty;
    repeat (rewrite replace_scan_keep by reflexivity);
    rewrite (replace_scan_keep _ _ _ _ Hp), Hs; reflexivity.
Qed.

Section Properties.
Variable server : nat → string → Response.
Variable decode : string → list byte → option string.
Variable decode_utf8 : list byte → string.
Variable anchors_href : string → list string.
Variable urljoin : string → string → string.

#[local] Abbreviation fetch_html := (fetch_html server decode decode_utf8).
#[local] Abbreviation fetched := (fetched server decode decode_utf8).
#[local] Abbreviation page := (page server decode decode_utf8).
#[local] Abbreviation qualifies := (qualifies server decode decode_utf8).
#[local] Abbreviation qualifying := (qualifying server decode decode_utf8).
#[local] Abbreviation visited := (visited server decode decode_utf8).
#[local] Abbreviation download_loop := (download_loop server decode decode_utf8).
#[local] Abbreviation download_pages := (download_pages server decode decode_utf8).
#[local] Abbreviation extract_links := (extract_links anchors_href urljoin).
#[local] Abbreviation seed_authors := (seed_authors anchors_href urljoin).
#[local] Abbreviation discovered :=
  (discovered server decode decode_utf8 anchors_href urljoin).
#[local] Abbreviation collect_authors :=
  (collect_authors server decode decode_utf8 anchors_href urljoin).
#[local] Abbreviation get_author_pages :=
  (get_author_pages server decode decode_utf8 anchors_href urljoin).
#[local] Abbreviation collect_text_page_urls :=
  (collect_text_page_urls server decode decode_utf8 anchors_href urljoin).
#[local] Abbreviation main := (main server decode decode_utf8 anchors_href urljoin).



(** *** The fetcher *)

Lemma iter_content_run url stream chunks total t :
  ∃ got, res (iter_content url stream chunks total t) = Ret got
    ∧ clock (iter_content url stream chunks total t) = t
    ∧ writes (trace (iter_content url stream chunks total t)) = [].
Proof.
  revert chunks total. induction stream as [|chunk stream IH]; intros chunks total.
  - by eexists.
  - cbn. rewrite emit_bind. cbn.
    destruct chunk as [|b chunk].
    + apply IH.
    + case_match.
      * by eexists.
      * apply IH.
Qed.

Lemma fetch_html_total url t :
  ∃ v tr, fetch_html url t = MkRun (Ret v) (S t) tr ∧ writes tr = [].
Proof.
  unfold fetch_html, polite_sleep. rewrite emit_bind.
  rewrite (bind_res (session_get server url) _ t (server t url)) by reflexivity.
  cbn [session_get res clock trace].
  destruct (server t url) as [|ct body enc].
  - do 2 eexists. split; reflexivity.
  - case_match.
    + do 2 eexists. split; reflexivity.
    + destruct (iter_content_run url body [] 0%Z (S t)) as (got & Hr & Hc & Hw).
      rewrite (bind_res _ _ _ _ Hr), Hc. rewrite emit_bind.
      destruct got; cbn [mret M_ret res clock trace];
        (do 2 eexists; split; [reflexivity|]);
        cbn; rewrite writes_app, Hw; reflexivity.
Qed.

Lemma fetch_html_run url t :
  ∃ tr, fetch_html url t = MkRun (Ret (fetched t url)) (S t) tr
        ∧ writes tr = [].
Proof.
  destruct (fetch_html_total url t) as (v & tr & H & Hw).
  exists tr. unfold fetched. rewrite H. done.
Qed.

(** *** The downloader *)

Lemma download_loop_run need urls saved lines t :
  let n := (Z.to_nat need - saved)%nat in
  let pages := take n (qualifying t urls) in
  let r := download_loop need urls saved lines t in
  res r = Ret ((saved + length pages)%nat, lines ++ index_lines_of (S saved) pages)
  ∧ clock r = (t + visited n t urls)%nat
  ∧ writes (trace r) = documents (S saved) pages.
Proof.
  revert saved lines t. induction urls as [|url rest IH]; intros saved lines t; cbn zeta.
  - cbn. rewrite take_nil. cbn. rewrite Nat.add_0_r, app_nil_r.
    destruct (Z.to_nat need - saved)%nat; done.
  - cbn [download_loop].
    destruct (Z.leb_spec need (Z.of_nat saved)) as [Hle|Hlt].
    + replace (Z.to_nat need - saved)%nat with O by lia.
      cbn. rewrite Nat.add_0_r, app_nil_r. done.
    + destruct (Z.to_nat need - saved)%nat as [|n'] eqn:Hn; [lia|].
      assert (Hn' : (Z.to_nat need - (saved + 1))%nat = n') by lia.
      destruct (fetch_html_run url t) as (tr & Hf & Hw).
      rewrite (bind_run _ _ _ _ _ _ Hf).
      cbn [visited qualifying]. unfold qualifies, page.
      destruct (fetched t url) as [html|]; cbn [res clock trace].
      * destruct (Str.truthy html).
        -- destruct (String.length html <? 1000)%nat.
           ++ unfold print. rewrite emit_bind. cbn [res clock trace].
              specialize (IH saved lines (S t)). cbn zeta in IH. rewrite Hn in IH.
              destruct IH as (-> & -> & IHw). split; [done|]. split; [lia|].
              rewrite writes_app, Hw. cbn. done.
           ++ unfold save_text, print. rewrite !emit_bind. cbn [res clock trace].
              specialize (IH (saved + 1)%nat (lines ++ [index_line (saved + 1) url]) (S t)).
              cbn zeta in IH. rewrite Hn' in IH.
              destruct IH as (-> & -> & IHw).
              rewrite firstn_cons, documents_cons, index_lines_of_cons.
              replace (saved + 1)%nat with (S saved) by lia.
              split; [|split].
              ** f_equal. f_equal; [cbn; lia|]. by rewrite <- app_assoc.
              ** lia.
              ** rewrite writes_app, Hw. cbn. f_equal.
                 replace (saved + 1)%nat with (S saved) in IHw by lia. done.
        -- specialize (IH saved lines (S t)). cbn zeta in IH. rewrite Hn in IH.
           destruct IH as (-> & -> & IHw). split; [done|]. split; [lia|].
           rewrite writes_app, Hw. done.
      * specialize (IH saved lines (S t)). cbn zeta in IH. rewrite Hn in IH.
        destruct IH as (-> & -> & IHw). split; [done|]. split; [lia|].
        rewrite writes_app, Hw. done.
Qed.






Lemma download_pages_run urls need t :
  let pages := take (Z.to_nat need) (qualifying t urls) in
  let r := download_pages urls need t in
  res r = Ret (length pages)
  ∧ clock r = (t + visited (Z.to_nat need) t urls)%nat
  ∧ ∃ tr, trace r = EvMakedirs OUT_DIR :: tr ++ [EvWrite INDEX_TXT (index_text (index_lines_of 1 pages))]
          ∧ writes tr = documents 1 pages.
Proof.
  cbn zeta. unfold download_pages. rewrite emit_bind.
  destruct (download_loop_run need urls 0 [] t) as (Hr & Hc & Hw).
  cbn zeta in Hr, Hc, Hw. rewrite Nat.sub_0_r in Hr, Hc, Hw.
  rewrite (bind_res _ _ _ _ Hr). cbn [res clock trace]. rewrite emit_bind.
  cbn [res clock trace mret M_ret]. rewrite Hc.
  split; [done|]. split; [done|].
  eexists. split; [reflexivity|]. done.
Qed.

(** *** Order-preserving removal of repeats *)

Lemma first_seen_app acc xs ys :
  first_seen acc (xs ++ ys) = first_seen (first_seen acc xs) ys.
Proof.
  revert acc. induction xs as [|x xs IH]; intros acc; cbn; [done|].
  case_decide; apply IH.
Qed.

Lemma first_seen_prefix acc xs : acc `prefix_of` first_seen acc xs.
Proof.
  revert acc. induction xs as [|x xs IH]; intros acc; cbn; [done|].
  case_decide; [apply IH|].
  etrans; [|apply IH]. by apply prefix_app_r.
Qed.

Lemma first_seen_NoDup acc xs : NoDup acc → NoDup (first_seen acc xs).
Proof.
  revert acc. induction xs as [|x xs IH]; intros acc Hacc; cbn; [done|].
  case_decide; apply IH; [done|].
  apply NoDup_app. split; [done|]. split; [|apply NoDup_singleton].
  intros y Hy ->%list_elem_of_singleton. done.
Qed.

Lemma first_seen_elem acc xs x : x ∈ first_seen acc xs ↔ x ∈ acc ∨ x ∈ xs.
Proof.
  revert acc. induction xs as [|y xs IH]; intros acc; cbn.
  - rewrite elem_of_nil. tauto.
  - case_decide as Hy; rewrite IH, (elem_of_cons xs).
    + split; [tauto|]. intros [?|[->|?]]; tauto.
    + rewrite elem_of_app, list_elem_of_singleton. tauto.
Qed.

Lemma take_first_seen n acc xs :
  (n ≤ length acc)%nat → take n (first_seen acc xs) = take n acc.
Proof.
  intros Hn. destruct (first_seen_prefix acc xs) as [ext ->].
  by rewrite take_app_le.
Qed.

Lemma take_first_seen_take n acc xs :
  take n (first_seen (take n acc) xs) = take n (first_seen acc xs).
Proof.
  destruct (decide (n ≤ length acc)%nat) as [Hle|Hgt].
  - rewrite !take_first_seen; [by rewrite take_take, Nat.min_id|done|].
    rewrite length_take. lia.
  - rewrite (take_ge acc) by lia. done.
Qed.

Lemma uniq_loop_first_seen xs (seen : gset string) uniq :
  (∀ x, x ∈ seen ↔ x ∈ uniq) → uniq_loop xs seen uniq = first_seen uniq xs.
Proof.
  revert seen uniq. induction xs as [|x xs IH]; intros seen uniq Hinv; cbn; [done|].
  destruct (decide (x ∈ seen)) as [Hin|Hin]; case_decide as Hin'.
  - by apply IH.
  - by apply Hinv in Hin.
  - by apply Hinv in Hin'.
  - apply IH. intros y. rewrite elem_of_union, elem_of_singleton, elem_of_app,
      list_elem_of_singleton, Hinv. tauto.
Qed.

Lemma collect_links_first_seen limit links collected (seen : gset string) :
  (∀ x, x ∈ seen ↔ x ∈ collected) →
  (length collected < Z.to_nat limit)%nat →
  let '(collected', seen') := collect_links limit links collected seen in
  collected' = take (Z.to_nat limit)
                 (first_seen collected (filter (λ u, is_text_page u = true) links))
  ∧ (∀ x, x ∈ seen' ↔ x ∈ collected').
Proof.
  revert collected seen.
  induction links as [|u rest IH]; intros collected seen Hinv Hlen;
    cbn [collect_links].
  - split; [|done]. cbn. rewrite take_ge; [done|lia].
  - destruct (is_text_page u) eqn:Hu.
    + rewrite filter_cons_True by done. cbn [first_seen].
      destruct (decide (u ∈ seen)) as [Hin|Hin]; case_decide as Hin'.
      * by apply IH.
      * by apply Hinv in Hin.
      * by apply Hinv in Hin'.
      * assert (Hinv' : ∀ x, x ∈ ({[u]} ∪ seen : gset string) ↔ x ∈ collected ++ [u]).
        { intros y. rewrite elem_of_union, elem_of_singleton, elem_of_app,
            list_elem_of_singleton, Hinv. tauto. }
        destruct (Z.leb_spec limit (Z.of_nat (length (collected ++ [u])))) as [Hle|Hlt].
        -- split; [|done]. rewrite take_first_seen.
           ++ rewrite take_ge; [done|]. rewrite length_app in *. cbn in *. lia.
           ++ rewrite length_app in *. cbn in *. lia.
        -- apply IH; [done|]. lia.
    + rewrite filter_cons_False by congruence. by apply IH.
Qed.


(** *** The collector and the pipeline *)

Lemma collect_authors_run limit i author_pages collected (seen : gset string) t :
  (∀ x, x ∈ seen ↔ x ∈ collected) →
  (length collected ≤ Z.to_nat limit)%nat →
  let r := collect_authors limit i author_pages collected seen t in
  res r = Ret (take (Z.to_nat limit) (first_seen collected (discovered t author_pages)))
  ∧ writes (trace r) = [].
Proof.
  revert i collected seen t.
  induction author_pages as [|author_url rest IH]; intros i collected seen t Hinv Hlen;
    cbn zeta; cbn [collect_authors discovered].
  - cbn. split; [|done]. rewrite take_ge; [done|lia].
  - destruct (Z.leb_spec limit (Z.of_nat (length collected))) as [Hle|Hlt].
    + cbn. split; [|done]. rewrite take_first_seen by lia. rewrite take_ge; [done|lia].
    + destruct (fetch_html_run (author_to_all_works_url author_url) t) as (tr & Hf & Hw).
      rewrite (bind_run _ _ _ _ _ _ Hf). cbn [res clock trace].
      rewrite writes_app, Hw. unfold page.
      destruct (fetched t (author_to_all_works_url author_url))
        as [html|]; [destruct (Str.truthy html)|].
      * rewrite first_seen_app.
        pose proof (collect_links_first_seen limit
          (extract_links html (author_to_all_works_url author_url))
          collected seen Hinv ltac:(lia)) as Hcl.
        destruct (collect_links limit _ collected seen) as [collected' seen'].
        destruct Hcl as [Hc' Hinv'].
        assert (Hlen' : (length collected' ≤ Z.to_nat limit)%nat).
        { rewrite Hc', length_take. lia. }
        destruct (IH (S i) collected' seen' (S t) Hinv' Hlen') as [Hr Hwr].
        destruct (i mod 10 =? 0)%nat.
        -- unfold print. rewrite emit_bind. cbn [res trace]. rewrite Hr.
           split; [|by cbn].
           f_equal. rewrite Hc'. apply take_first_seen_take.
        -- rewrite (bind_run (mret tt) _ (S t) tt (S t) []) by reflexivity.
           cbn [res trace]. rewrite Hr.
           split; [|by cbn].
           f_equal. rewrite Hc'. apply take_first_seen_take.
      * cbn [app]. apply IH; done.
      * cbn [app]. apply IH; done.
Qed.


Lemma get_author_pages_run t :
  ∃ tr, get_author_pages t
        = MkRun (match page t AUTHORS_PAGE with
                 | Some html => Ret (seed_authors html)
                 | None => Raise seed_error
                 end) (S t) tr
        ∧ writes tr = [].
Proof.
  unfold get_author_pages, page.
  destruct (fetch_html_run AUTHORS_PAGE t) as (tr & Hf & Hw).
  rewrite (bind_run _ _ _ _ _ _ Hf).
  destruct (fetched t AUTHORS_PAGE) as [html|];
    [destruct (Str.truthy html)|]; cbn [raise mret M_ret res clock trace];
    rewrite app_nil_r; (eexists; split; [|exact Hw]); [|done..].
  unfold seed_authors. rewrite uniq_loop_first_seen; [done|].
  intros x. rewrite elem_of_nil. set_solver.
Qed.

Lemma collect_text_page_urls_run limit t :
  let r := collect_text_page_urls limit t in
  res r = match page t AUTHORS_PAGE with
          | Some html =>
              Ret (take (Z.to_nat limit)
                        (first_seen [] (discovered (S t) (seed_authors html))))
          | None => Raise seed_error
          end
  ∧ writes (trace r) = [].
Proof.
  cbn zeta. unfold collect_text_page_urls.
  destruct (get_author_pages_run t) as (tr & Hg & Hw).
  destruct (page t AUTHORS_PAGE) as [html|].
  - rewrite (bind_run _ _ _ _ _ _ Hg). unfold print. rewrite emit_bind.
    cbn [res clock trace].
    destruct (collect_authors_run limit 1 (seed_authors html) [] ∅ (S t)) as [Hr Hwr].
    { intros x. rewrite elem_of_nil. set_solver. }
    { cbn. lia. }
    rewrite Hr. split; [done|]. rewrite writes_app, Hw. cbn. done.
  - rewrite (bind_raise _ _ _ _ _ _ Hg). done.
Qed.

Lemma main_run t :
  match page t AUTHORS_PAGE with
  | Some html =>
      ∃ t',
        let urls := take (Z.to_nat 1200)
                         (first_seen [] (discovered (S t) (seed_authors html))) in
        let pages := take (Z.to_nat MIN_PAGES_TO_DOWNLOAD) (qualifying t' urls) in
        res (main t) = Ret tt
        ∧ writes (trace (main t))
          = (URLS_TXT, urls_text urls) :: documents 1 pages
            ++ [(INDEX_TXT, index_text (index_lines_of 1 pages))]
  | None => res (main t) = Raise seed_error ∧ writes (trace (main t)) = []
  end.
Proof.
  destruct (collect_text_page_urls_run 1200 t) as [Hr Hw]. cbn zeta in Hr, Hw.
  unfold main.
  destruct (page t AUTHORS_PAGE) as [html|].
  - rewrite (bind_res _ _ _ _ Hr). cbn [res clock trace].
    unfold print. rewrite !emit_bind. cbn [res clock trace].
    set (urls := take _ _) in *.
    set (t' := clock _).
    exists t'. cbn zeta.
    destruct (download_pages_run urls MIN_PAGES_TO_DOWNLOAD t') as (Hd & _ & tr & Htr & Hwd).
    cbn zeta in Hd, Htr, Hwd.
    rewrite (bind_res _ _ _ _ Hd). cbn [res clock trace].
    split.
    + by destruct (_ <? _)%Z.
    + rewrite writes_app, Hw. cbn. f_equal. rewrite writes_app, Htr. cbn.
      rewrite writes_app, Hwd. cbn.
      destruct (_ <? _)%Z; cbn; by rewrite <- app_assoc.
  - unfold mbind, M_bind. rewrite Hr. done.
Qed.
(** *** The size cap and the content type *)

Lemma iter_content_spec url stream chunks total t :
  (total ≤ MAX_BYTES)%Z →
  let r := iter_content url stream chunks total t in
  ((MAX_BYTES < total + total_bytes stream)%Z →
     res r = Ret None ∧ EvPrint (SkipTooLarge url) ∈ trace r)
  ∧ ((total + total_bytes stream ≤ MAX_BYTES)%Z →
     ∃ kept, res r = Ret (Some kept)
       ∧ concat kept = concat chunks ++ concat stream
       ∧ EvPrint (SkipTooLarge url) ∉ trace r).
Proof.
  revert chunks total.
  induction stream as [|chunk stream IH]; intros chunks total Htot; cbn zeta.
  - cbn. split; [lia|]. intros _. exists chunks.
    rewrite app_nil_r. split; [done|]. split; [done|]. apply not_elem_of_nil.
  - cbn [iter_content total_bytes foldr]. fold (total_bytes stream).
    rewrite emit_bind. cbn [res trace].
    pose proof (total_bytes_nonneg stream) as Hnn.
    destruct chunk as [|b chunk].
    + specialize (IH chunks total Htot). cbn zeta in IH. destruct IH as [IH1 IH2].
      change (len []) with 0%Z. rewrite Z.add_0_l.
      split.
      * intros H. destruct (IH1 H) as [-> Hin]. split; [done|]. by right.
      * intros H. destruct (IH2 H) as (kept & -> & Hk & Hnin). exists kept.
        split; [done|]. split; [done|].
        intros [Heq|Hin]%elem_of_cons; [discriminate|done].
    + set (c := b :: chunk) in *.
      destruct (Z.ltb_spec MAX_BYTES (total + len c)) as [Hbig|Hok].
      * split.
        -- intros _. cbn. split; [done|]. right. left.
        -- intros H. lia.
      * specialize (IH (chunks ++ [c]) (total + len c)%Z Hok). cbn zeta in IH.
        destruct IH as [IH1 IH2]. split.
        -- intros H. destruct IH1 as [-> Hin]; [lia|]. split; [done|]. by right.
        -- intros H. destruct IH2 as (kept & -> & Hk & Hnin); [lia|]. exists kept.
           split; [done|]. split.
           ++ rewrite Hk, concat_app. cbn. by rewrite app_nil_r, <- app_assoc.
           ++ intros [Heq|Hin]%elem_of_cons; [discriminate|done].
Qed.

Lemma fetch_html_body url t ct body enc :
  server t url = Resp ct body enc →
  declares_html ct = true →
  let r := fetch_html url t in
  ((MAX_BYTES < total_bytes body)%Z →
     res r = Ret None ∧ EvPrint (SkipTooLarge url) ∈ trace r)
  ∧ ((total_bytes body ≤ MAX_BYTES)%Z →
     res r = Ret (Some (decode_body decode decode_utf8 enc (concat body)))
     ∧ EvPrint (SkipTooLarge url) ∉ trace r).
Proof.
  intros Hs Hh. cbn zeta.
  unfold fetch_html, polite_sleep. rewrite emit_bind.
  rewrite (bind_res (session_get server url) _ t (server t url)) by reflexivity.
  cbn [session_get res clock trace]. rewrite Hs.
  unfold declares_html in Hh. rewrite Hh. cbn [negb].
  destruct (iter_content_spec url body [] 0%Z (S t)) as [H1 H2]; [done|].
  cbn zeta in H1, H2. rewrite Z.add_0_l in H1, H2.
  split; intros H.
  - destruct (H1 H) as [Hr Hin]. rewrite (bind_res _ _ _ _ Hr). rewrite emit_bind.
    cbn [res trace mret M_ret]. split; [done|].
    right. right. apply elem_of_app. by left.
  - destruct (H2 H) as (kept & Hr & Hk & Hnin). rewrite (bind_res _ _ _ _ Hr).
    rewrite emit_bind. cbn [res trace mret M_ret]. rewrite Hk. split; [done|].
    cbn [app]. rewrite !elem_of_cons, elem_of_app, elem_of_cons, elem_of_nil.
    intros [Heq|[Heq|[Hin|[Heq|[]]]]]; done.
Qed.

Lemma fetch_html_not_html url t ct body enc :
  server t url = Resp ct body enc →
  declares_html ct = false →
  fetch_html url t
  = MkRun (Ret None) (S t)
      [EvSleep; EvGet url; EvClose;
       EvPrint (SkipNotHtml url (Str.lower (default "" ct)))].
Proof.
  intros Hs Hh.
  unfold fetch_html, polite_sleep. rewrite emit_bind.
  rewrite (bind_res (session_get server url) _ t (server t url)) by reflexivity.
  cbn [session_get res clock trace]. rewrite Hs.
  unfold declares_html in Hh. rewrite Hh. reflexivity.
Qed.

Lemma fetched_res url t v : res (fetch_html url t) = Ret v → fetched t url = v.
Proof. unfold fetched. by intros ->. Qed.

Lemma fetched_None_qualifies url t : fetched t url = None → qualifies t url = None.
Proof. unfold qualifies, page. by intros ->. Qed.

Lemma page_None_qualifies url t : page t url = None → qualifies t url = None.
Proof. unfold qualifies. by intros ->. Qed.

(** *** A URL that is passed over *)

Lemma download_loop_skip need url rest saved lines t :
  qualifies t url = None →
  (Z.of_nat saved < need)%Z →
  let r := download_loop need (url :: rest) saved lines t in
  let r' := download_loop need rest saved lines (S t) in
  res r = res r' ∧ clock r = clock r' ∧ writes (trace r) = writes (trace r').
Proof.
  intros Hq Hlt. cbn zeta.
  destruct (download_loop_run need (url :: rest) saved lines t)
    as (-> & -> & ->).
  destruct (download_loop_run need rest saved lines (S t))
    as (-> & -> & ->).
  destruct (Z.to_nat need - saved)%nat as [|n] eqn:Hn; [lia|].
  cbn [qualifying visited]. rewrite Hq.
  split; [done|]. split; [lia|done].
Qed.

Lemma collect_authors_skip limit i author_url rest collected (seen : gset string) t :
  page t (author_to_all_works_url author_url) = None →
  (Z.of_nat (length collected) < limit)%Z →
  let r := collect_authors limit i (author_url :: rest) collected seen t in
  let r' := collect_authors limit (S i) rest collected seen (S t) in
  res r = res r' ∧ clock r = clock r' ∧ writes (trace r) = writes (trace r').
Proof.
  intros Hp Hlt. cbn zeta. cbn [collect_authors].
  destruct (Z.leb_spec limit (Z.of_nat (length collected))) as [Hle|_]; [lia|].
  destruct (fetch_html_run (author_to_all_works_url author_url) t)
    as (tr & Hf & Hw).
  rewrite (bind_run _ _ _ _ _ _ Hf). cbn [res clock trace]. rewrite writes_app, Hw.
  unfold page in Hp.
  destruct (fetched t _) as [html|]; [|done].
  destruct (Str.truthy html); [discriminate|done].
Qed.

Lemma collect_authors_returns limit i author_pages collected (seen : gset string) t :
  ∃ urls, res (collect_authors limit i author_pages collected seen t) = Ret urls.
Proof.
  revert i collected seen t.
  induction author_pages as [|author_url rest IH]; intros i collected seen t;
    cbn [collect_authors].
  - by eexists.
  - destruct (limit <=? Z.of_nat (length collected))%Z; [by eexists|].
    destruct (fetch_html_run (author_to_all_works_url author_url) t) as (tr & Hf & _).
    rewrite (bind_run _ _ _ _ _ _ Hf). cbn [res].
    destruct (fetched t _) as [html|]; [destruct (Str.truthy html)|]; [|apply IH..].
    destruct (collect_links limit _ collected seen) as [collected' seen'].
    destruct (i mod 10 =? 0)%nat.
    + unfold print. rewrite emit_bind. apply IH.
    + rewrite (bind_run (mret tt) _ (S t) tt (S t) []) by reflexivity. apply IH.
Qed.

Lemma discovered_text_pages t author_pages u :
  u ∈ discovered t author_pages → is_text_page u = true.
Proof.
  revert t. induction author_pages as [|a rest IH]; intros t; cbn [discovered].
  - by intros ?%elem_of_nil.
  - intros [Hu|Hu]%elem_of_app; [|by apply (IH (S t))].
    destruct (page t (author_to_all_works_url a)); [|by apply elem_of_nil in Hu].
    by apply list_elem_of_filter in Hu as [Hu _].
Qed.

(** ** The claims *)

(** C1. Sequence contiguity and the index.  A run of [download_pages] that
    returns [k] writes exactly the document files [1.txt], ..., [k.txt] of
    the output directory, in this order and each once, and then the index.
    The index is made of [k] lines, each followed by a newline; line [i] is
    the number [i], a tab and the URL of the page whose text is in file
    [i]. *)
Theorem download_pages_contiguous urls need t k :
  res (download_pages urls need t) = Ret k →
  ∃ (pages : list (string * string)) (lines : list string),
    length pages = k
    ∧ pages = take (Z.to_nat need) (qualifying t urls)
    ∧ writes (trace (download_pages urls need t))
      = documents 1 pages ++ [(INDEX_TXT, unlines lines)]
    ∧ (documents 1 pages).*1 = out_file <$> seq 1 k
    ∧ NoDup (out_file <$> seq 1 k)
    ∧ (INDEX_TXT ∉ out_file <$> seq 1 k)
    ∧ length lines = k
    ∧ ∀ i p, pages !! i = Some p →
        documents 1 pages !! i
        = Some ("./task1/dump/" +:+ pretty (S i) +:+ ".txt", p.2)
        ∧ lines !! i = Some (pretty (S i) +:+ String (ascii_of_N 9) p.1).
Proof.
  intros Hk.
  destruct (download_pages_run urls need t) as (Hr & _ & tr & Htr & Hw).
  cbn zeta in Hr, Htr, Hw. rewrite Hr in Hk. injection Hk as Hk.
  set (pages := take (Z.to_nat need) (qualifying t urls)) in *.
  exists pages, (index_lines_of 1 pages). split; [done|]. split; [done|]. split.
  { rewrite Htr. cbn. rewrite writes_app, Hw. cbn. by rewrite index_text_unlines. }
  split; [by rewrite documents_names, Hk|].
  split; [apply out_files_NoDup|].
  split.
  { intros (n & Hn & _)%list_elem_of_fmap. symmetry in Hn.
    by apply out_file_not_index in Hn. }
  split; [by rewrite index_lines_of_length|].
  intros i p Hp. split.
  - by rewrite (documents_lookup 1 pages i p Hp).
  - by rewrite (index_lines_of_lookup 1 pages i p Hp).
Qed.


(** C2. Discovery.  When [collect_text_page_urls limit] returns a list,
    the list has at most [limit] entries (none when the limit is below
    one), every entry matches the text-page pattern, no URL occurs twice,
    and the entries are in the order of discovery: the list is the start of
    the sequence of the text-page links found on the works pages of the
    authors, taken author by author, every URL kept at its first
    occurrence only. *)
Theorem collect_text_page_urls_sound limit t urls :
  res (collect_text_page_urls limit t) = Ret urls →
  (length urls ≤ Z.to_nat limit)%nat
  ∧ Forall (λ u, is_text_page u = true) urls
  ∧ NoDup urls
  ∧ ∃ html, page t AUTHORS_PAGE = Some html
      ∧ urls = take (Z.to_nat limit)
                    (first_seen [] (discovered (S t) (seed_authors html))).
Proof.
  intros Hres.
  destruct (collect_text_page_urls_run limit t) as [Hr _]. cbn zeta in Hr.
  rewrite Hres in Hr.
  destruct (page t AUTHORS_PAGE) as [html|]; [|discriminate].
  injection Hr as ->.
  split; [rewrite length_take; lia|].
  split; [|split].
  - apply Forall_take, Forall_forall. intros u Hu.
    apply first_seen_elem in Hu as [Hu|Hu]; [by apply elem_of_nil in Hu|].
    by apply discovered_text_pages in Hu.
  - eapply sublist_NoDup; [|apply sublist_take].
    apply first_seen_NoDup, NoDup_nil_2.
  - by exists html.
Qed.

(** C4. Size cap.  For a response that declares HTML: when the chunks of
    its body hold more than [MAX_BYTES] bytes together, [fetch_html] reports
    the page as too large and returns no text, nothing is written, and the
    downloader passes the URL over without a file, an index line or a
    count; when they hold at most [MAX_BYTES] bytes, [fetch_html] returns the
    text of the whole body and does not report it as too large. *)
Theorem fetch_html_size_cap url t ct body enc :
  server t url = Resp ct body enc →
  declares_html ct = true →
  let r := fetch_html url t in
  ((MAX_BYTES < total_bytes body)%Z →
     res r = Ret None
     ∧ EvPrint (SkipTooLarge url) ∈ trace r
     ∧ writes (trace r) = []
     ∧ qualifies t url = None
     ∧ ∀ need rest saved lines, (Z.of_nat saved < need)%Z →
         res (download_loop need (url :: rest) saved lines t)
         = res (download_loop need rest saved lines (S t))
         ∧ writes (trace (download_loop need (url :: rest) saved lines t))
           = writes (trace (download_loop need rest saved lines (S t))))
  ∧ ((total_bytes body ≤ MAX_BYTES)%Z →
     res r = Ret (Some (decode_body decode decode_utf8 enc (concat body)))
     ∧ EvPrint (SkipTooLarge url) ∉ trace r).
Proof.
  intros Hs Hh. cbn zeta.
  destruct (fetch_html_body url t ct body enc Hs Hh) as [Hbig Hok]. cbn zeta in Hbig, Hok.
  split; [|exact Hok].
  intros H. destruct (Hbig H) as [Hr Hin].
  assert (Hq : qualifies t url = None).
  { apply fetched_None_qualifies. by apply fetched_res. }
  split; [done|]. split; [done|]. split.
  { destruct (fetch_html_run url t) as (tr & -> & Hw). done. }
  split; [done|].
  intros need rest saved lines Hlt.
  destruct (download_loop_skip need url rest saved lines t Hq Hlt) as (? & _ & ?). done.
Qed.

(** C5. Content-type gate.  For a response that does not declare HTML,
    [fetch_html] sleeps, sends the request, closes the response, reports the
    page as not HTML and returns no text: no chunk of the body is read.
    The downloader passes the URL over without a file, an index line or a
    count. *)
Theorem fetch_html_content_type_gate url t ct body enc :
  server t url = Resp ct body enc →
  declares_html ct = false →
  fetch_html url t
  = MkRun (Ret None) (S t)
      [EvSleep; EvGet url; EvClose;
       EvPrint (SkipNotHtml url (Str.lower (default "" ct)))]
  ∧ chunks_read (trace (fetch_html url t)) = []
  ∧ writes (trace (fetch_html url t)) = []
  ∧ qualifies t url = None
  ∧ ∀ need rest saved lines, (Z.of_nat saved < need)%Z →
      res (download_loop need (url :: rest) saved lines t)
      = res (download_loop need rest saved lines (S t))
      ∧ writes (trace (download_loop need (url :: rest) saved lines t))
        = writes (trace (download_loop need rest saved lines (S t))).
Proof.
  intros Hs Hh.
  pose proof (fetch_html_not_html url t ct body enc Hs Hh) as Hf.
  assert (Hq : qualifies t url = None).
  { apply fetched_None_qualifies, fetched_res. by rewrite Hf. }
  rewrite Hf. split; [done|]. split; [done|]. split; [done|]. split; [done|].
  intros need rest saved lines Hlt.
  destruct (download_loop_skip need url rest saved lines t Hq Hlt) as (? & _ & ?). done.
Qed.

(** C7. Index artifact.  The last effect of [download_pages] is to write
    the index, so that the index file holds the new text whatever it held
    before.  The text is made of one line per saved page, every line
    followed by a newline; line [i] is the number [i], a tab and the URL of
    the [i]-th saved page.  With no saved page the text is empty, and
    otherwise it ends with a newline. *)
Theorem index_artifact urls need t (fs : gmap string string) :
  let pages := take (Z.to_nat need) (qualifying t urls) in
  let lines := index_lines_of 1 pages in
  let r := download_pages urls need t in
  (∃ tr, trace r = tr ++ [EvWrite INDEX_TXT (index_text lines)])
  ∧ replay (trace r) fs !! INDEX_TXT = Some (index_text lines)
  ∧ index_text lines = unlines lines
  ∧ length lines = length pages
  ∧ (∀ i p, pages !! i = Some p →
       lines !! i = Some (pretty (S i) +:+ String (ascii_of_N 9) p.1))
  ∧ (pages = [] → index_text lines = "")
  ∧ (pages ≠ [] → ∃ s, index_text lines = s +:+ nl).
Proof.
  cbn zeta.
  destruct (download_pages_run urls need t) as (_ & _ & tr & Htr & _).
  cbn zeta in Htr. set (pages := take (Z.to_nat need) (qualifying t urls)) in *.
  split; [exists (EvMakedirs OUT_DIR :: tr); by rewrite Htr|].
  split.
  { rewrite Htr. change (EvMakedirs OUT_DIR :: tr ++ ?l) with ((EvMakedirs OUT_DIR :: tr) ++ l).
    rewrite replay_app. cbn. apply lookup_insert_eq. }
  split; [apply index_text_unlines|].
  split; [apply index_lines_of_length|].
  split; [intros i p Hp; by rewrite (index_lines_of_lookup 1 pages i p Hp)|].
  split; [by intros ->|].
  intros Hne. destruct pages as [|[u h] pages']; [done|].
  eexists. unfold index_text. rewrite index_lines_of_cons. reflexivity.
Qed.

(** C9, as amended.  The documents are written as the loop goes, and the
    index once, as the last effect of [download_pages].  So if the process
    stops before the end, the files written are the first documents, in
    order, and the index is not among them. *)
Theorem index_written_last urls need t p :
  p `prefix_of` trace (download_pages urls need t) →
  p ≠ trace (download_pages urls need t) →
  let pages := take (Z.to_nat need) (qualifying t urls) in
  writes p `prefix_of` documents 1 pages
  ∧ (∀ content, (INDEX_TXT, content) ∉ writes p)
  ∧ writes (trace (download_pages urls need t))
    = documents 1 pages ++ [(INDEX_TXT, index_text (index_lines_of 1 pages))].
Proof.
  intros Hp Hne. cbn zeta.
  destruct (download_pages_run urls need t) as (_ & _ & tr & Htr & Hw).
  cbn zeta in Htr, Hw. set (pages := take (Z.to_nat need) (qualifying t urls)) in *.
  rewrite Htr in Hp, Hne |- *.
  assert (Hp' : p `prefix_of` EvMakedirs OUT_DIR :: tr).
  { change (EvMakedirs OUT_DIR :: tr ++ ?l) with ((EvMakedirs OUT_DIR :: tr) ++ l) in Hp, Hne.
    apply prefix_snoc_cases in Hp as [Hp|Hp]; done. }
  assert (Hwp : writes p `prefix_of` documents 1 pages).
  { apply writes_prefix in Hp'. by rewrite <- Hw. }
  split; [done|]. split.
  - intros content Hin. destruct Hwp as [ext Hext].
    assert (Hin' : (INDEX_TXT, content) ∈ documents 1 pages).
    { rewrite Hext. apply elem_of_app. by left. }
    apply (list_elem_of_fmap_2 fst) in Hin'. rewrite documents_names in Hin'.
    apply list_elem_of_fmap in Hin' as (n & Hn & _). cbn in Hn. symmetry in Hn.
    by apply out_file_not_index in Hn.
  - cbn. rewrite writes_app, Hw. done.
Qed.

(** C10. Empty body.  A fetch that returns the empty text is taken as a
    fetch that returns none.  At the seed page, [main] raises the setup
    error without having written a file.  In the collector and in the
    downloader, the loop goes on to the next URL with what it had
    collected, counted and saved, and no file is written for the URL. *)
Theorem empty_body_as_failure t url :
  fetched t url = Some "" ∨ fetched t url = None →
  page t url = None
  ∧ qualifies t url = None
  ∧ (url = AUTHORS_PAGE →
       res (main t) = Raise seed_error ∧ writes (trace (main t)) = [])
  ∧ (∀ limit i author_url rest collected (seen : gset string),
       author_to_all_works_url author_url = url →
       (Z.of_nat (length collected) < limit)%Z →
       res (collect_authors limit i (author_url :: rest) collected seen t)
       = res (collect_authors limit (S i) rest collected seen (S t)))
  ∧ (∀ need rest saved lines, (Z.of_nat saved < need)%Z →
       res (download_loop need (url :: rest) saved lines t)
       = res (download_loop need rest saved lines (S t))
       ∧ writes (trace (download_loop need (url :: rest) saved lines t))
         = writes (trace (download_loop need rest saved lines (S t)))).
Proof.
  intros Hf.
  assert (Hp : page t url = None).
  { unfold page. by destruct Hf as [-> | ->]. }
  assert (Hq : qualifies t url = None) by by apply page_None_qualifies.
  split; [done|]. split; [done|]. split; [|split].
  - intros ->. pose proof (main_run t) as H. by rewrite Hp in H.
  - intros limit i author_url rest collected seen <- Hlt.
    by destruct (collect_authors_skip limit i author_url rest collected seen t Hp Hlt).
  - intros need rest saved lines Hlt.
    destruct (download_loop_skip need url rest saved lines t Hq Hlt) as (? & _ & ?). done.
Qed.

End Properties.

(** ** The claims on the small site *)

#[local] Abbreviation site_fetch_html := (fetch_html Site.server Site.decode Site.decode_utf8).
#[local] Abbreviation site_download_pages :=
  (download_pages Site.server Site.decode Site.decode_utf8).
#[local] Abbreviation site_collect :=
  (collect_text_page_urls Site.server Site.decode Site.decode_utf8
                          Site.anchors_href Site.urljoin).

Example scenario_a :
  res (site_collect 600 0)
  = Ret [Site.text "1"; Site.text "2"; Site.text "3"; Site.text "4"].
Proof. vm_compute. reflexivity. Qed.

Example scenario_a_limit :
  res (site_collect 3 0) = Ret [Site.text "1"; Site.text "2"; Site.text "3"].
Proof. vm_compute. reflexivity. Qed.

Example too_large :
  (MAX_BYTES < total_bytes Site.big_body)%Z
  ∧ res (site_fetch_html "big" 0) = Ret None.
Proof. vm_compute. done. Qed.

(** Scenario B satisfies C1: the run returns 3. *)
Lemma download_pages_contiguous_witness :
  res (site_download_pages Site.urls 3 0) = Ret 3%nat
  ∧ ∃ (pages : list (string * string)) (lines : list string),
      length pages = 3%nat
      ∧ pages = take (Z.to_nat 3)
                     (qualifying Site.server Site.decode Site.decode_utf8 0 Site.urls)
      ∧ writes (trace (site_download_pages Site.urls 3 0))
        = documents 1 pages ++ [(INDEX_TXT, unlines lines)]
      ∧ (documents 1 pages).*1 = out_file <$> seq 1 3
      ∧ NoDup (out_file <$> seq 1 3)
      ∧ (INDEX_TXT ∉ out_file <$> seq 1 3)
      ∧ length lines = 3%nat
      ∧ ∀ i p, pages !! i = Some p →
          documents 1 pages !! i
          = Some ("./task1/dump/" +:+ pretty (S i) +:+ ".txt", p.2)
          ∧ lines !! i = Some (pretty (S i) +:+ String (ascii_of_N 9) p.1).
Proof.
  split; [vm_compute; reflexivity|].
  apply (download_pages_contiguous Site.server Site.decode Site.decode_utf8 Site.urls 3 0 3).
  vm_compute. reflexivity.
Defined.

(** The index of scenario B, as it is written. *)
Example scenario_b_index :
  last (writes (trace (site_download_pages Site.urls 3 0)))
  = Some (INDEX_TXT,
          "1" +:+ String (ascii_of_N 9) "u1" +:+ nl
          +:+ "2" +:+ String (ascii_of_N 9) "u2" +:+ nl
          +:+ "3" +:+ String (ascii_of_N 9) "u4" +:+ nl).
Proof. vm_compute. reflexivity. Qed.

(** Scenario A satisfies C2, with a limit of three. *)
Lemma collect_text_page_urls_sound_witness :
  let urls := [Site.text "1"; Site.text "2"; Site.text "3"] in
  res (site_collect 3 0) = Ret urls
  ∧ (length urls ≤ Z.to_nat 3)%nat
  ∧ Forall (λ u, is_text_page u = true) urls
  ∧ NoDup urls
  ∧ ∃ html, page Site.server Site.decode Site.decode_utf8 0 AUTHORS_PAGE = Some html
      ∧ urls = take (Z.to_nat 3)
                    (first_seen [] (discovered Site.server Site.decode Site.decode_utf8
                                               Site.anchors_href Site.urljoin 1
                                               (seed_authors Site.anchors_href Site.urljoin html))).
Proof.
  cbn zeta. split; [vm_compute; reflexivity|].
  apply (collect_text_page_urls_sound Site.server Site.decode Site.decode_utf8
           Site.anchors_href Site.urljoin 3 0).
  vm_compute. reflexivity.
Defined.

(** The page of 5 001 216 bytes satisfies the hypotheses of C4, and is
    too large. *)
Lemma fetch_html_size_cap_witness :
  Site.server 0 "big" = Resp Site.html_type Site.big_body None
  ∧ declares_html Site.html_type = true
  ∧ (MAX_BYTES < total_bytes Site.big_body)%Z
  ∧ res (site_fetch_html "big" 0) = Ret None
  ∧ EvPrint (SkipTooLarge "big") ∈ trace (site_fetch_html "big" 0)
  ∧ writes (trace (site_fetch_html "big" 0)) = []
  ∧ qualifies Site.server Site.decode Site.decode_utf8 0 "big" = None.
Proof.
  assert (Hbig : (MAX_BYTES < total_bytes Site.big_body)%Z) by (vm_compute; reflexivity).
  split; [reflexivity|]. split; [reflexivity|]. split; [exact Hbig|].
  destruct (fetch_html_size_cap Site.server Site.decode Site.decode_utf8
              "big" 0 Site.html_type Site.big_body None eq_refl eq_refl)
    as [H _].
  destruct (H Hbig) as (H1 & H2 & H3 & H4 & _).
  split; [exact H1|]. split; [exact H2|]. split; [exact H3|exact H4].
Defined.

(** The image of scenario B satisfies the hypotheses of C5. *)
Lemma fetch_html_content_type_gate_witness :
  Site.server 2 "u3" = Resp (Some "image/png") (Site.body 1000) None
  ∧ declares_html (Some "image/png") = false
  ∧ site_fetch_html "u3" 2
    = MkRun (Ret None) 3 [EvSleep; EvGet "u3"; EvClose; EvPrint (SkipNotHtml "u3" "image/png")]
  ∧ chunks_read (trace (site_fetch_html "u3" 2)) = [].
Proof.
  split; [reflexivity|]. split; [reflexivity|].
  destruct (fetch_html_content_type_gate Site.server Site.decode Site.decode_utf8
              "u3" 2 (Some "image/png") (Site.body 1000) None eq_refl eq_refl)
    as (H1 & H2 & _).
  split; [exact H1|exact H2].
Defined.

(** C9 as stated fails on the first URL of scenario B: after the sixth
    event of the run the file [1.txt] is written and the index is not. *)
Lemma index_not_durable :
  ¬ index_durable (trace (site_download_pages ["u1"] 1 0)).
Proof.
  intros H.
  destruct (H (take 6 (trace (site_download_pages ["u1"] 1 0))) (prefix_take _ _)
              1%nat (string_of_list_byte (repeat "x"%byte 1000)))
    as (content & url & Hin & _).
  - vm_compute. left.
  - vm_compute in Hin. apply list_elem_of_singleton in Hin. discriminate.
Qed.

(** The same run satisfies the hypotheses of C9 as amended. *)
Lemma index_written_last_witness :
  let tr := trace (site_download_pages ["u1"] 1 0) in
  let pages := take (Z.to_nat 1) (qualifying Site.server Site.decode Site.decode_utf8 0 ["u1"]) in
  take 6 tr `prefix_of` tr
  ∧ take 6 tr ≠ tr
  ∧ writes (take 6 tr) `prefix_of` documents 1 pages
  ∧ (∀ content, (INDEX_TXT, content) ∉ writes (take 6 tr))
  ∧ writes tr = documents 1 pages ++ [(INDEX_TXT, index_text (index_lines_of 1 pages))].
Proof.
  cbn zeta.
  assert (Hne : take 6 (trace (site_download_pages ["u1"] 1 0))
                ≠ trace (site_download_pages ["u1"] 1 0)).
  { intros Heq. apply (f_equal length) in Heq. vm_compute in Heq. discriminate. }
  split; [apply prefix_take|]. split; [exact Hne|].
  exact (index_written_last Site.server Site.decode Site.decode_utf8 ["u1"] 1 0
           _ (prefix_take _ _) Hne).
Defined.

(** The page with the empty body satisfies the hypothesis of C10. *)
Lemma empty_body_as_failure_witness :
  (fetched Site.server Site.decode Site.decode_utf8 0 "empty" = Some ""
   ∨ fetched Site.server Site.decode Site.decode_utf8 0 "empty" = None)
  ∧ page Site.server Site.decode Site.decode_utf8 0 "empty" = None
  ∧ qualifies Site.server Site.decode Site.decode_utf8 0 "empty" = None
  ∧ ∀ need rest saved lines, (Z.of_nat saved < need)%Z →
      res (download_loop Site.server Site.decode Site.decode_utf8 need
                         ("empty" :: rest) saved lines 0)
      = res (download_loop Site.server Site.decode Site.decode_utf8 need
                           rest saved lines 1).
Proof.
  assert (Hf : fetched Site.server Site.decode Site.decode_utf8 0 "empty" = Some ""
               ∨ fetched Site.server Site.decode Site.decode_utf8 0 "empty" = None).
  { left. vm_compute. reflexivity. }
  split; [exact Hf|].
  destruct (empty_body_as_failure Site.server Site.decode Site.decode_utf8
              Site.anchors_href Site.urljoin 0 "empty" Hf)
    as (Hp & Hq & _ & _ & Hd).
  split; [exact Hp|]. split; [exact Hq|].
  intros need rest saved lines Hlt. by destruct (Hd need rest saved lines Hlt).
Defined.

(** C8 at an author whose slug is [index.html]: the URL matches the author
    pattern, and the replacement takes both occurrences of [/index.html],
    which gives neither the works-list URL of the slug nor the URL with its
    trailing [/index.html] replaced. *)
Theorem all_works_url_of_slug_index_html :
  let url := "https://ilibrary.ru/author/index.html/index.html" in
  url = author_url true false "index.html"
  ∧ is_author_page url = true
  ∧ author_to_all_works_url url
    = "https://ilibrary.ru/author/l.all/index.html/l.all/index.html"
  ∧ works_url true false "index.html"
    = "https://ilibrary.ru/author/index.html/l.all/index.html"
  ∧ trailing_replaced url = works_url true false "index.html"
  ∧ author_to_all_works_url url ≠ trailing_replaced url.
Proof. vm_compute. repeat split; try reflexivity. discriminate. Qed.

(** ** More of the crawler *)

(** *** Governed traces *)

Lemma gets_app tr1 tr2 : gets (tr1 ++ tr2) = gets tr1 ++ gets tr2.
Proof. unfold gets. apply omap_app. Qed.

Lemma governed_nil : governed [].
Proof. split; intros i; intros; by rewrite lookup_nil in *. Qed.

Lemma governed_event e :
  (∀ url, e ≠ EvGet url) → e ≠ EvSleep → governed [e].
Proof.
  intros Hg Hs. split.
  - intros [|i] url H; [|done].
    cbn in H. injection H as ->. by destruct (Hg url).
  - intros [|i] H; [|done].
    cbn in H. by injection H as ->.
Qed.

Lemma governed_request url : governed [EvSleep; EvGet url].
Proof.
  split.
  - intros [|[|i]] u H; try done. exists O. done.
  - intros [|[|i]] H; try done. by exists url.
Qed.

Lemma governed_app tr1 tr2 : governed tr1 → governed tr2 → governed (tr1 ++ tr2).
Proof.
  intros [G1 S1] [G2 S2]. split.
  - intros i url H. apply lookup_app_Some in H as [H|[Hle H]].
    + destruct (G1 i url H) as (j & -> & Hj). exists j. split; [done|].
      by apply lookup_app_l_Some.
    + destruct (G2 _ url H) as (j & Hij & Hj).
      exists (length tr1 + j)%nat. split; [lia|].
      rewrite lookup_app_r by lia. by replace (length tr1 + j - length tr1)%nat with j by lia.
  - intros i H. apply lookup_app_Some in H as [H|[Hle H]].
    + destruct (S1 i H) as [url Hu]. exists url. by apply lookup_app_l_Some.
    + destruct (S2 _ H) as [url Hu]. exists url.
      rewrite lookup_app_r by lia.
      by replace (S i - length tr1)%nat with (S (i - length tr1)) by lia.
Qed.

Lemma paced_ret {A} (a : A) : paced (mret a).
Proof. intros t. split; [apply governed_nil|]. cbn. lia. Qed.

Lemma paced_raise {A} e : paced (raise (A:=A) e).
Proof. intros t. split; [apply governed_nil|]. cbn. lia. Qed.

Lemma paced_emit e : (∀ url, e ≠ EvGet url) → e ≠ EvSleep → paced (emit e).
Proof.
  intros Hg Hs t. split; [by apply governed_event|].
  cbn. destruct e; try (cbn; lia). by destruct (Hg url).
Qed.

Lemma paced_print msg : paced (print msg).
Proof. by apply paced_emit. Qed.

Lemma paced_bind {A B} (m : M A) (f : A → M B) :
  paced m → (∀ a, paced (f a)) → paced (m ≫= f).
Proof.
  intros Hm Hf t. destruct (Hm t) as [Gm Cm].
  unfold mbind, M_bind. destruct (res (m t)) as [a|e]; cbn [trace clock].
  - destruct (Hf a (clock (m t))) as [Gf Cf]. split; [by apply governed_app|].
    rewrite Cf, Cm, gets_app, length_app. lia.
  - done.
Qed.

(** The delay and the request go together. *)
Lemma paced_request {B} server url (k : Response → M B) :
  (∀ resp, paced (k resp)) →
  paced (polite_sleep ;; resp ← session_get server url; k resp).
Proof.
  intros Hk t. destruct (Hk (server t url) (S t)) as [Gk Ck].
  unfold polite_sleep. rewrite emit_bind.
  rewrite (bind_res (session_get server url) _ t (server t url)) by reflexivity.
  cbn [session_get res clock trace]. split.
  - apply (governed_app [EvSleep; EvGet url]); [apply governed_request|done].
  - rewrite Ck. change (EvSleep :: [EvGet url] ++ ?x) with ([EvSleep; EvGet url] ++ x).
    rewrite gets_app, length_app. cbn. lia.
Qed.

(** *** More on the fetcher *)

Lemma closes_app tr1 tr2 : closes (tr1 ++ tr2) = (closes tr1 + closes tr2)%nat.
Proof. unfold closes. by rewrite omap_app, length_app. Qed.

Lemma total_bytes_app b1 b2 : total_bytes (b1 ++ b2) = (total_bytes b1 + total_bytes b2)%Z.
Proof.
  induction b1 as [|c b1 IH]; [done|].
  cbn [app total_bytes foldr]. fold (total_bytes (b1 ++ b2)) (total_bytes b1). lia.
Qed.

Lemma total_bytes_cons c b : total_bytes (c :: b) = (len c + total_bytes b)%Z.
Proof. reflexivity. Qed.

Section Fetch.
Variable server : nat → string → Response.
Variable decode : string → list byte → option string.
Variable decode_utf8 : list byte → string.

#[local] Abbreviation fetch_html := (fetch_html server decode decode_utf8).

Lemma iter_content_quiet url stream chunks total t :
  closes (trace (iter_content url stream chunks total t)) = 0%nat.
Proof.
  revert chunks total. induction stream as [|chunk stream IH]; intros chunks total;
    [done|].
  cbn [iter_content]. rewrite emit_bind. cbn [trace].
  change (EvChunk chunk :: ?x) with ([EvChunk chunk] ++ x). rewrite closes_app.
  destruct chunk; [apply IH|]. case_match; [done|apply IH].
Qed.

Lemma paced_iter_content_gets url stream chunks total t :
  gets (trace (iter_content url stream chunks total t)) = [].
Proof.
  revert chunks total. induction stream as [|chunk stream IH]; intros chunks total;
    [done|].
  cbn [iter_content]. rewrite emit_bind. cbn [trace].
  change (EvChunk chunk :: ?x) with ([EvChunk chunk] ++ x). rewrite gets_app.
  destruct chunk; [apply IH|]. case_match; [done|apply IH].
Qed.

Lemma iter_content_reads url stream chunks total t :
  (total ≤ MAX_BYTES)%Z →
  let read := chunks_read (trace (iter_content url stream chunks total t)) in
  ((total + total_bytes stream ≤ MAX_BYTES)%Z → read = stream)
  ∧ ((MAX_BYTES < total + total_bytes stream)%Z →
     ∃ pre last rest,
       stream = pre ++ last :: rest
       ∧ read = pre ++ [last]
       ∧ (total + total_bytes pre ≤ MAX_BYTES)%Z
       ∧ (MAX_BYTES < total + total_bytes (pre ++ [last]))%Z).
Proof.
  revert chunks total.
  induction stream as [|chunk stream IH]; intros chunks total Htot; cbn zeta.
  - cbn. split; [done|lia].
  - cbn [iter_content]. rewrite emit_bind. cbn [trace].
    change (EvChunk chunk :: ?x) with ([EvChunk chunk] ++ x). rewrite chunks_read_app.
    change (chunks_read [EvChunk chunk]) with [chunk].
    rewrite total_bytes_cons.
    pose proof (total_bytes_nonneg stream) as Hnn.
    assert (Hstep : ∀ chunks' total', total' = (total + len chunk)%Z →
              (total' ≤ MAX_BYTES)%Z →
              let read := [chunk] ++ chunks_read (trace (iter_content url stream chunks' total' t)) in
              ((total + (len chunk + total_bytes stream) ≤ MAX_BYTES)%Z → read = chunk :: stream)
              ∧ ((MAX_BYTES < total + (len chunk + total_bytes stream))%Z →
                 ∃ pre last rest,
                   chunk :: stream = pre ++ last :: rest
                   ∧ read = pre ++ [last]
                   ∧ (total + total_bytes pre ≤ MAX_BYTES)%Z
                   ∧ (MAX_BYTES < total + total_bytes (pre ++ [last]))%Z)).
    { intros chunks' total' -> Hok. cbn zeta.
      destruct (IH chunks' (total + len chunk)%Z Hok) as [IH1 IH2]. split.
      - intros H. rewrite IH1 by lia. done.
      - intros H. destruct IH2 as (pre & last & rest & -> & -> & Hpre & Hlast); [lia|].
        exists (chunk :: pre), last, rest. split; [done|]. split; [done|].
        cbn [app]. rewrite !total_bytes_cons. split; lia. }
    destruct chunk as [|b chunk].
    + apply Hstep; [|done]. unfold len. cbn. lia.
    + set (c := b :: chunk) in *.
      destruct (Z.ltb_spec MAX_BYTES (total + len c)) as [Hbig|Hok].
      * split; [lia|]. intros _. exists [], c, stream.
        split; [done|]. split; [done|]. cbn [app].
        rewrite total_bytes_cons. change (total_bytes []) with 0%Z. lia.
      * by apply Hstep.
Qed.

Lemma fetch_html_trace url t :
  ∃ rest, trace (fetch_html url t) = EvSleep :: EvGet url :: rest
          ∧ gets rest = []
          ∧ (∀ ct body enc, server t url = Resp ct body enc → declares_html ct = true →
               chunks_read rest = chunks_read (trace (iter_content url body [] 0%Z (S t)))).
Proof.
  unfold fetch_html, polite_sleep. rewrite emit_bind.
  rewrite (bind_res (session_get server url) _ t (server t url)) by reflexivity.
  cbn [session_get res clock trace].
  destruct (server t url) as [|ct body enc].
  - eexists. split; [reflexivity|]. split; [done|]. discriminate.
  - destruct (negb _) eqn:Hh.
    + eexists. split; [reflexivity|]. split; [done|].
      intros ct' body' enc' [= <- <- <-] Hd. unfold declares_html in Hd.
      rewrite Hd in Hh. discriminate.
    + destruct (iter_content_run url body [] 0%Z (S t)) as (got & Hr & Hc & _).
      rewrite (bind_res _ _ _ _ Hr), Hc. rewrite emit_bind. cbn [res clock trace].
      eexists. split; [reflexivity|]. split.
      * rewrite gets_app, paced_iter_content_gets. by destruct got.
      * intros ct' body' enc' [= <- <- <-] _. rewrite chunks_read_app.
        destruct got; cbn; by rewrite app_nil_r.
Qed.

Lemma fetch_html_gets url t : gets (trace (fetch_html url t)) = [url].
Proof.
  destruct (fetch_html_trace url t) as (rest & -> & Hg & _).
  change (EvSleep :: EvGet url :: rest) with ([EvSleep; EvGet url] ++ rest).
  by rewrite gets_app, Hg.
Qed.

(** X3. Reading stops at the cap.  For a response that declares HTML, a
    body of at most [MAX_BYTES] bytes is read to its end; of a larger one
    the chunks are read up to and including the first that takes the count
    over [MAX_BYTES], and none after it. *)
Theorem fetch_html_reads_to_cap url t ct body enc :
  server t url = Resp ct body enc →
  declares_html ct = true →
  let read := chunks_read (trace (fetch_html url t)) in
  ((total_bytes body ≤ MAX_BYTES)%Z → read = body)
  ∧ ((MAX_BYTES < total_bytes body)%Z →
     ∃ pre last rest,
       body = pre ++ last :: rest
       ∧ read = pre ++ [last]
       ∧ (total_bytes pre ≤ MAX_BYTES)%Z
       ∧ (MAX_BYTES < total_bytes (pre ++ [last]))%Z).
Proof.
  intros Hs Hd. cbn zeta.
  destruct (fetch_html_trace url t) as (rest & -> & _ & Hread).
  change (EvSleep :: EvGet url :: rest) with ([EvSleep; EvGet url] ++ rest).
  rewrite chunks_read_app. cbn [app]. change (chunks_read [EvSleep; EvGet url]) with (@nil (list byte)).
  cbn [app]. rewrite (Hread ct body enc Hs Hd).
  destruct (iter_content_reads url body [] 0%Z (S t)) as [H1 H2]; [done|].
  cbn zeta in H1, H2. rewrite !Z.add_0_l in H1, H2. split; [exact H1|].
  intros H. destruct (H2 H) as (pre & last & rest' & ? & ? & Hp & Hl).
  rewrite !Z.add_0_l in Hp, Hl. by exists pre, last, rest'.
Qed.

(** X2. One request per fetch, and the response closed.  [fetch_html]
    sends one request, for the URL it was given (it never tries again).
    When the request raises, nothing is closed and no chunk is read.  When
    it gives a response, the response is closed once, whatever the branch
    taken, and no chunk is read after that. *)
Theorem fetch_html_one_request url t :
  let tr := trace (fetch_html url t) in
  gets tr = [url]
  ∧ match server t url with
    | RequestException => closes tr = 0%nat ∧ chunks_read tr = []
    | Resp _ _ _ =>
        ∃ before after,
          tr = before ++ EvClose :: after
          ∧ closes before = 0%nat ∧ closes after = 0%nat
          ∧ chunks_read after = []
    end.
Proof.
  cbn zeta. unfold fetch_html, polite_sleep. rewrite emit_bind.
  rewrite (bind_res (session_get server url) _ t (server t url)) by reflexivity.
  cbn [session_get res clock trace].
  destruct (server t url) as [|ct body enc].
  - done.
  - case_match.
    + split; [done|]. exists [EvSleep; EvGet url]. eexists. split; [reflexivity|]. done.
    + destruct (iter_content_run url body [] 0%Z (S t)) as (got & Hr & Hc & _).
      rewrite (bind_res _ _ _ _ Hr), Hc. rewrite emit_bind. cbn [res clock trace].
      pose proof (paced_iter_content_gets url body [] 0%Z (S t)) as Hg.
      split.
      * cbn [app]. change (EvSleep :: EvGet url :: ?x) with ([EvSleep; EvGet url] ++ x).
        rewrite gets_app, gets_app, Hg. by destruct got.
      * exists ([EvSleep; EvGet url] ++ trace (iter_content url body [] 0%Z (S t))).
        exists []. split; [destruct got; by rewrite <- app_assoc|].
        split; [rewrite closes_app; by rewrite iter_content_quiet|]. done.
Qed.
End Fetch.

(** *** The pace of the run *)

Section Pace.
Variable server : nat → string → Response.
Variable decode : string → list byte → option string.
Variable decode_utf8 : list byte → string.
Variable anchors_href : string → list string.
Variable urljoin : string → string → string.

#[local] Abbreviation fetch_html := (fetch_html server decode decode_utf8).
#[local] Abbreviation qualifies := (qualifies server decode decode_utf8).
#[local] Abbreviation qualifying := (qualifying server decode decode_utf8).
#[local] Abbreviation visited := (visited server decode decode_utf8).
#[local] Abbreviation download_loop := (download_loop server decode decode_utf8).
#[local] Abbreviation download_pages := (download_pages server decode decode_utf8).
#[local] Abbreviation collect_authors :=
  (collect_authors server decode decode_utf8 anchors_href urljoin).
#[local] Abbreviation get_author_pages :=
  (get_author_pages server decode decode_utf8 anchors_href urljoin).
#[local] Abbreviation collect_text_page_urls :=
  (collect_text_page_urls server decode decode_utf8 anchors_href urljoin).
#[local] Abbreviation main := (main server decode decode_utf8 anchors_href urljoin).

Lemma paced_iter_content url stream chunks total :
  paced (iter_content url stream chunks total).
Proof.
  revert chunks total. induction stream as [|chunk stream IH]; intros chunks total;
    cbn [iter_content].
  - apply paced_ret.
  - apply paced_bind; [by apply paced_emit|]. intros _.
    destruct chunk; [apply IH|].
    case_match; [|apply IH].
    apply paced_bind; [apply paced_print|]. intros _. apply paced_ret.
Qed.

Lemma paced_fetch_html url : paced (fetch_html url).
Proof.
  unfold fetch_html. apply paced_request. intros [|ct body enc].
  - apply paced_bind; [apply paced_print|]. intros _. apply paced_ret.
  - case_match.
    + apply paced_bind; [by apply paced_emit|]. intros _.
      apply paced_bind; [apply paced_print|]. intros _. apply paced_ret.
    + apply paced_bind; [apply paced_iter_content|]. intros got.
      apply paced_bind; [by apply paced_emit|]. intros _.
      destruct got; apply paced_ret.
Qed.

Lemma paced_get_author_pages : paced get_author_pages.
Proof.
  unfold get_author_pages. apply paced_bind; [apply paced_fetch_html|].
  intros [html|]; [|apply paced_raise].
  destruct (Str.truthy html); [apply paced_ret|apply paced_raise].
Qed.

Lemma paced_collect_authors limit i author_pages collected (seen : gset string) :
  paced (collect_authors limit i author_pages collected seen).
Proof.
  revert i collected seen.
  induction author_pages as [|a rest IH]; intros i collected seen; cbn [collect_authors].
  - apply paced_ret.
  - case_match; [apply paced_ret|].
    apply paced_bind; [apply paced_fetch_html|].
    intros [html|]; [|apply IH].
    destruct (Str.truthy html); [|apply IH].
    destruct (collect_links _ _ _ _) as [collected' seen'].
    apply paced_bind; [|intros _; apply IH].
    case_match; [apply paced_print|apply paced_ret].
Qed.

Lemma paced_collect_text_page_urls limit : paced (collect_text_page_urls limit).
Proof.
  unfold collect_text_page_urls.
  apply paced_bind; [apply paced_get_author_pages|]. intros authors.
  apply paced_bind; [apply paced_print|]. intros _. apply paced_collect_authors.
Qed.

Lemma paced_download_loop need urls saved lines :
  paced (download_loop need urls saved lines).
Proof.
  revert saved lines. induction urls as [|url rest IH]; intros saved lines;
    cbn [download_loop].
  - apply paced_ret.
  - case_match; [apply paced_ret|].
    apply paced_bind; [apply paced_fetch_html|].
    intros [html|]; [|apply IH].
    destruct (Str.truthy html); [|apply IH].
    case_match.
    + apply paced_bind; [apply paced_print|]. intros _. apply IH.
    + apply paced_bind; [by apply paced_emit|]. intros _.
      apply paced_bind; [apply paced_print|]. intros _. apply IH.
Qed.

Lemma paced_download_pages urls need : paced (download_pages urls need).
Proof.
  unfold download_pages.
  apply paced_bind; [by apply paced_emit|]. intros _.
  apply paced_bind; [apply paced_download_loop|]. intros [saved lines].
  apply paced_bind; [by apply paced_emit|]. intros _. apply paced_ret.
Qed.

(** X1. Politeness of a whole run.  In the trace of [main] every request
    comes right after a delay and every delay is followed at once by a
    request, so there is one delay per request; the request counter grows
    by the number of requests made. *)
Theorem main_paced t :
  governed (trace (main t))
  ∧ clock (main t) = (t + length (gets (trace (main t))))%nat.
Proof.
  revert t. change (paced main). unfold main.
  apply paced_bind; [apply paced_collect_text_page_urls|]. intros urls.
  apply paced_bind; [by apply paced_emit|]. intros _.
  apply paced_bind; [apply paced_print|]. intros _.
  apply paced_bind; [apply paced_download_pages|]. intros saved.
  case_match; apply paced_print.
Qed.
End Pace.

(** *** Links and authors *)

Lemma lstrip_blank s : blank (Str.lstrip s) = blank s.
Proof.
  induction s as [|c s IH]; [done|]. cbn. destruct (Str.is_space c) eqn:Hc; [done|].
  cbn. by rewrite Hc.
Qed.

Lemma rstrip_empty s : Str.rstrip s = "" ↔ blank s = true.
Proof.
  induction s as [|c s IH]; [done|]. cbn.
  destruct (Str.rstrip s) as [|a r].
  - destruct (Str.is_space c); cbn.
    + rewrite <- IH. done.
    + split; discriminate.
  - split; [discriminate|]. intros [_ H]%andb_true_iff. apply IH in H. discriminate.
Qed.

Lemma strip_truthy s : Str.truthy (Str.strip s) = negb (blank s).
Proof.
  unfold Str.strip. rewrite <- lstrip_blank.
  destruct (blank (Str.lstrip s)) eqn:Hb.
  - apply rstrip_empty in Hb. by rewrite Hb.
  - destruct (Str.rstrip (Str.lstrip s)) eqn:Hr; [|done].
    apply rstrip_empty in Hr. congruence.
Qed.

Lemma first_seen_sublist acc xs :
  ∃ ys, first_seen acc xs = acc ++ ys ∧ ys `sublist_of` xs.
Proof.
  revert acc. induction xs as [|x xs IH]; intros acc; cbn.
  - exists []. by rewrite app_nil_r.
  - case_decide.
    + destruct (IH acc) as (ys & -> & Hs). exists ys. split; [done|]. by apply sublist_cons.
    + destruct (IH (acc ++ [x])) as (ys & -> & Hs). exists (x :: ys).
      split; [by rewrite <- app_assoc|]. by apply sublist_skip.
Qed.

Section Links.
Variable server : nat → string → Response.
Variable decode : string → list byte → option string.
Variable decode_utf8 : list byte → string.
Variable anchors_href : string → list string.
Variable urljoin : string → string → string.

#[local] Abbreviation extract_links := (extract_links anchors_href urljoin).
#[local] Abbreviation page := (page server decode decode_utf8).
#[local] Abbreviation get_author_pages :=
  (get_author_pages server decode decode_utf8 anchors_href urljoin).

(** X4. The links of a document.  [extract_links] gives, in document
    order, one link per anchor whose reference is not blank: the reference
    without the white space around it, joined to the base URL.  Blank
    references give nothing, and repeats are kept. *)
Theorem extract_links_anchors html base_url :
  extract_links html base_url
  = (λ h, urljoin base_url (Str.strip h))
      <$> filter (λ h, blank h = false) (anchors_href html)
  ∧ (length (extract_links html base_url) ≤ length (anchors_href html))%nat.
Proof.
  unfold extract_links. split.
  - induction (anchors_href html) as [|h hs IH]; [done|].
    cbn [omap list_omap]. rewrite strip_truthy, IH.
    destruct (blank h) eqn:Hb; cbn [negb].
    + by rewrite filter_cons_False by congruence.
    + by rewrite filter_cons_True by done.
  - induction (anchors_href html) as [|h hs IH]; [done|].
    cbn [omap list_omap]. case_match; cbn; lia.
Qed.

(** X5. The author pages of the seed.  [get_author_pages] makes one
    request and writes nothing.  When the seed page is not Ok it raises the
    setup error.  Otherwise it returns the links of the seed page that
    match the author pattern, each once, in the order of the page. *)
Theorem get_author_pages_authors t :
  let r := get_author_pages t in
  clock r = S t
  ∧ writes (trace r) = []
  ∧ match page t AUTHORS_PAGE with
    | None => res r = Raise seed_error
    | Some html =>
        ∃ authors,
          res r = Ret authors
          ∧ NoDup authors
          ∧ authors `sublist_of` extract_links html AUTHORS_PAGE
          ∧ ∀ u, u ∈ authors ↔
                 u ∈ extract_links html AUTHORS_PAGE ∧ is_author_page u = true
    end.
Proof.
  cbn zeta.
  destruct (get_author_pages_run server decode decode_utf8 anchors_href urljoin t)
    as (tr & -> & Hw).
  cbn [res clock trace]. split; [done|]. split; [done|].
  destruct (page t AUTHORS_PAGE) as [html|]; [|done].
  exists (seed_authors anchors_href urljoin html). split; [reflexivity|].
  unfold seed_authors.
  split; [apply first_seen_NoDup, NoDup_nil_2|]. split.
  - destruct (first_seen_sublist []
                (filter (λ u, is_author_page u = true) (extract_links html AUTHORS_PAGE)))
      as (ys & -> & Hs).
    cbn [app]. etrans; [exact Hs|]. apply sublist_filter.
  - intros u.
    rewrite (first_seen_elem decode anchors_href urljoin), elem_of_nil, list_elem_of_filter.
    tauto.
Qed.
End Links.

(** *** More on the collector *)

Section Collector.
Variable server : nat → string → Response.
Variable decode : string → list byte → option string.
Variable decode_utf8 : list byte → string.
Variable anchors_href : string → list string.
Variable urljoin : string → string → string.

#[local] Abbreviation fetch_html := (fetch_html server decode decode_utf8).
#[local] Abbreviation page := (page server decode decode_utf8).
#[local] Abbreviation seed_authors := (seed_authors anchors_href urljoin).
#[local] Abbreviation discovered :=
  (discovered server decode decode_utf8 anchors_href urljoin).
#[local] Abbreviation collect_authors :=
  (collect_authors server decode decode_utf8 anchors_href urljoin).
#[local] Abbreviation get_author_pages :=
  (get_author_pages server decode decode_utf8 anchors_href urljoin).
#[local] Abbreviation collect_text_page_urls :=
  (collect_text_page_urls server decode decode_utf8 anchors_href urljoin).



(** X7. Nothing is lost below the limit.  When the collector returns fewer
    URLs than the limit, it returns every text-page link of every works
    page that was Ok, each once, at the place of its first occurrence. *)
Theorem collect_text_page_urls_complete limit t urls :
  res (collect_text_page_urls limit t) = Ret urls →
  (Z.of_nat (length urls) < limit)%Z →
  ∃ html, page t AUTHORS_PAGE = Some html
    ∧ urls = first_seen [] (discovered (S t) (seed_authors html))
    ∧ ∀ u, u ∈ urls ↔ u ∈ discovered (S t) (seed_authors html).
Proof.
  intros Hres Hlen.
  destruct (collect_text_page_urls_run server decode decode_utf8 anchors_href urljoin limit t)
    as [Hr _]. cbn zeta in Hr. rewrite Hres in Hr.
  destruct (page t AUTHORS_PAGE) as [html|]; [|discriminate].
  injection Hr as ->. exists html. split; [done|].
  rewrite length_take in Hlen.
  assert (Heq : take (Z.to_nat limit) (first_seen [] (discovered (S t) (seed_authors html)))
                = first_seen [] (discovered (S t) (seed_authors html))).
  { apply take_ge. lia. }
  rewrite Heq. split; [done|].
  intros u. rewrite (first_seen_elem decode anchors_href urljoin), elem_of_nil. tauto.
Qed.
End Collector.

(** *** More on the downloader *)

Lemma replay_untouched tr (fs : gmap string string) path :
  path ∉ (writes tr).*1 → replay tr fs !! path = fs !! path.
Proof.
  revert fs. induction tr as [|e tr IH]; intros fs Hp; [done|].
  change (replay (e :: tr) fs) with (replay tr (apply_event fs e)).
  destruct e; try (by apply IH).
  cbn in Hp. apply not_elem_of_cons in Hp as [Hne Hp].
  rewrite IH by done. cbn. by rewrite lookup_insert_ne.
Qed.

Lemma replay_written tr (fs : gmap string string) path content :
  NoDup (writes tr).*1 → (path, content) ∈ writes tr →
  replay tr fs !! path = Some content.
Proof.
  revert fs. induction tr as [|e tr IH]; intros fs Hnd Hin; [by apply elem_of_nil in Hin|].
  change (replay (e :: tr) fs) with (replay tr (apply_event fs e)).
  destruct e; try (by apply IH).
  cbn in Hnd, Hin. apply NoDup_cons in Hnd as [Hnot Hnd].
  apply elem_of_cons in Hin as [[= <- <-]|Hin].
  - rewrite replay_untouched by done. cbn. apply lookup_insert_eq.
  - by apply IH.
Qed.

Lemma documents_prefix first pages1 pages2 :
  pages1 `prefix_of` pages2 → documents first pages1 `prefix_of` documents first pages2.
Proof.
  intros [ext ->]. revert first.
  induction pages1 as [|[u h] pages IH]; intros first; [apply prefix_nil|].
  cbn [app]. rewrite !documents_cons. apply prefix_cons, IH.
Qed.

Section Downloader.
Variable server : nat → string → Response.
Variable decode : string → list byte → option string.
Variable decode_utf8 : list byte → string.

#[local] Abbreviation fetched := (fetched server decode decode_utf8).
#[local] Abbreviation qualifies := (qualifies server decode decode_utf8).
#[local] Abbreviation qualifying := (qualifying server decode decode_utf8).
#[local] Abbreviation visited := (visited server decode decode_utf8).
#[local] Abbreviation download_loop := (download_loop server decode decode_utf8).
#[local] Abbreviation download_pages := (download_pages server decode decode_utf8).

Lemma qualifies_Some t url html :
  qualifies t url = Some html →
  fetched t url = Some html ∧ (1000 ≤ String.length html)%nat.
Proof.
  unfold qualifies, page. destruct (fetched t url) as [h|]; [|done].
  destruct (Str.truthy h); [|done].
  destruct (Nat.ltb_spec (String.length h) 1000); [done|]. by intros [= ->].
Qed.

Lemma qualifying_elem t urls u h :
  (u, h) ∈ qualifying t urls →
  ∃ i, urls !! i = Some u ∧ qualifies (t + i) u = Some h.
Proof.
  revert t. induction urls as [|url rest IH]; intros t; cbn [qualifying].
  - by intros ?%elem_of_nil.
  - intros Hin.
    assert (Hrest : (u, h) ∈ qualifying (S t) rest →
              ∃ i, (url :: rest) !! i = Some u ∧ qualifies (t + i) u = Some h).
    { intros (i & Hi & Hq)%IH. exists (S i). split; [done|].
      by replace (t + S i)%nat with (S t + i)%nat by lia. }
    destruct (qualifies t url) as [html|] eqn:Hq; [|by apply Hrest].
    apply elem_of_cons in Hin as [[= -> ->]|Hin]; [|by apply Hrest].
    exists O. split; [done|]. by rewrite Nat.add_0_r.
Qed.


Lemma documents_elem first pages path content :
  (path, content) ∈ documents first pages → ∃ u, (u, content) ∈ pages.
Proof.
  revert first. induction pages as [|[u h] pages IH]; intros first.
  - by intros ?%elem_of_nil.
  - rewrite documents_cons. intros [[= -> ->]|Hin]%elem_of_cons.
    + exists u. left.
    + destruct (IH _ Hin) as [u' Hu]. exists u'. by right.
Qed.



(** X9. What is saved.  Every file [download_pages] writes, the index
    apart, holds at least 1000 characters, and holds exactly the text that
    [fetch_html] returned for the URL at that position of the list. *)
Theorem download_pages_saves_verbatim urls need t :
  Forall (λ w, w.1 = INDEX_TXT
               ∨ ((1000 ≤ String.length w.2)%nat
                  ∧ ∃ i url, urls !! i = Some url ∧ fetched (t + i) url = Some w.2))
         (writes (trace (download_pages urls need t))).
Proof.
  destruct (download_pages_run server decode decode_utf8 urls need t)
    as (_ & _ & tr & -> & Hw). cbn zeta in Hw.
  change (EvMakedirs ?p :: ?y) with ([EvMakedirs p] ++ y).
  rewrite !writes_app, Hw. cbn [writes omap list_omap app].
  apply Forall_app. split; [|apply Forall_singleton; by left].
  apply Forall_forall. intros [path content] Hin. right. cbn.
  apply documents_elem in Hin as [u Hu].
  apply elem_of_take in Hu as (j & Hu & _). apply list_elem_of_lookup_2 in Hu.
  apply qualifying_elem in Hu as (i & Hi & Hq).
  apply qualifies_Some in Hq as [Hf Hlen]. split; [done|]. by exists i, u.
Qed.

(** X10. The files after a run.  After [download_pages] the file [i.txt]
    holds the [i]-th saved page, and every file other than the index and
    the documents of this run is as it was: a document left by an earlier,
    longer run stays. *)
Theorem download_pages_files urls need t (fs : gmap string string) :
  let pages := take (Z.to_nat need) (qualifying t urls) in
  let fs' := replay (trace (download_pages urls need t)) fs in
  (∀ i p, pages !! i = Some p → fs' !! out_file (S i) = Some p.2)
  ∧ (∀ path, path ≠ INDEX_TXT →
       (∀ i, (i < length pages)%nat → path ≠ out_file (S i)) →
       fs' !! path = fs !! path).
Proof.
  cbn zeta.
  destruct (download_pages_run server decode decode_utf8 urls need t)
    as (_ & _ & tr & Htr & Hw). cbn zeta in Hw, Htr.
  set (pages := take (Z.to_nat need) (qualifying t urls)) in *.
  assert (Hws : writes (trace (download_pages urls need t))
                = documents 1 pages ++ [(INDEX_TXT, index_text (index_lines_of 1 pages))]).
  { rewrite Htr. change (EvMakedirs ?p :: ?y) with ([EvMakedirs p] ++ y).
    by rewrite !writes_app, Hw. }
  assert (Hnames : (writes (trace (download_pages urls need t))).*1
                   = (out_file <$> seq 1 (length pages)) ++ [INDEX_TXT]).
  { by rewrite Hws, fmap_app, documents_names. }
  split.
  - intros i p Hp. apply replay_written.
    + rewrite Hnames. apply NoDup_app. split; [apply out_files_NoDup|].
      split; [|apply NoDup_singleton].
      intros x (n & -> & _)%list_elem_of_fmap Hx%list_elem_of_singleton.
      by apply (out_file_not_index n).
    + rewrite Hws. apply elem_of_app. left.
      apply list_elem_of_lookup. exists i. by rewrite (documents_lookup 1 pages i p Hp).
  - intros path Hidx Hdoc. apply replay_untouched. rewrite Hnames.
    intros [Hin|Hin]%elem_of_app.
    + apply list_elem_of_fmap in Hin as (n & -> & Hn). apply elem_of_seq in Hn.
      destruct n as [|n]; [lia|]. apply (Hdoc n); [lia|done].
    + by apply list_elem_of_singleton in Hin.
Qed.

(** X11. Nothing to download.  With a quota below one, or an empty list,
    [download_pages] makes no request and returns 0; it still creates the
    directory and writes the index, which is then empty. *)
Theorem download_pages_nothing urls need t :
  (need ≤ 0)%Z ∨ urls = [] →
  download_pages urls need t
  = MkRun (Ret 0%nat) t [EvMakedirs OUT_DIR; EvWrite INDEX_TXT ""].
Proof.
  intros H. unfold download_pages. rewrite emit_bind.
  assert (Hl : download_loop need urls 0 [] t = MkRun (Ret (0%nat, [])) t []).
  { destruct H as [H| ->]; [|done]. destruct urls as [|url rest]; [done|].
    cbn [download_loop]. by destruct (Z.leb_spec need (Z.of_nat 0)); [|lia]. }
  rewrite (bind_run _ _ _ _ _ _ Hl). reflexivity.
Qed.

(** X12. A larger quota only adds.  On the same list and site, the
    documents written under a quota are the first documents written under
    any larger quota. *)
Theorem download_pages_quota_monotone urls need need' t :
  (need ≤ need')%Z →
  ∃ docs docs' index index',
    writes (trace (download_pages urls need t)) = docs ++ [(INDEX_TXT, index)]
    ∧ writes (trace (download_pages urls need' t)) = docs' ++ [(INDEX_TXT, index')]
    ∧ docs `prefix_of` docs'.
Proof.
  intros Hle.
  assert (Hd : ∀ which,
            writes (trace (download_pages urls which t))
            = documents 1 (take (Z.to_nat which) (qualifying t urls))
              ++ [(INDEX_TXT, index_text (index_lines_of 1
                                 (take (Z.to_nat which) (qualifying t urls))))]).
  { intros which.
    destruct (download_pages_run server decode decode_utf8 urls which t)
      as (_ & _ & tr & -> & Hw). cbn zeta in Hw.
    change (EvMakedirs ?p :: ?y) with ([EvMakedirs p] ++ y).
    by rewrite !writes_app, Hw. }
  do 4 eexists. split; [apply Hd|]. split; [apply Hd|].
  apply documents_prefix.
  exists (take (Z.to_nat need' - Z.to_nat need) (drop (Z.to_nat need) (qualifying t urls))).
  rewrite take_take_drop. f_equal. lia.
Qed.
End Downloader.

(** *** More on the pipeline *)

Lemma urls_text_unlines urls : urls_text urls = unlines urls.
Proof. reflexivity. Qed.

Section Pipeline.
Variable server : nat → string → Response.
Variable decode : string → list byte → option string.
Variable decode_utf8 : list byte → string.
Variable anchors_href : string → list string.
Variable urljoin : string → string → string.

#[local] Abbreviation page := (page server decode decode_utf8).
#[local] Abbreviation qualifying := (qualifying server decode decode_utf8).
#[local] Abbreviation seed_authors := (seed_authors anchors_href urljoin).
#[local] Abbreviation discovered :=
  (discovered server decode decode_utf8 anchors_href urljoin).
#[local] Abbreviation collect_text_page_urls :=
  (collect_text_page_urls server decode decode_utf8 anchors_href urljoin).
#[local] Abbreviation download_pages := (download_pages server decode decode_utf8).
#[local] Abbreviation main := (main server decode decode_utf8 anchors_href urljoin).


End Pipeline.

(** *** The replacement, again *)

Lemma replace_scan_absent old new s :
  Str.contains old s = false → Str.replace_scan old new 0 s = s.
Proof.
  induction s as [|c s IH]; [done|].
  cbn [Str.contains]. intros [Hp Hc]%orb_false_iff.
  rewrite replace_scan_keep by done. by rewrite IH.
Qed.

(** X15. A URL without [/index.html].  [author_to_all_works_url] returns
    its argument unchanged exactly when [/index.html] does not occur in
    it. *)
Theorem author_to_all_works_url_unchanged url :
  author_to_all_works_url url = url ↔ Str.contains "/index.html" url = false.
Proof.
  unfold author_to_all_works_url, Str.replace. split.
  - induction url as [|c url IH]; [done|].
    cbn [Str.contains Str.replace_scan].
    destruct (String.prefix "/index.html" (String c url)) eqn:Hp.
    + intros H. exfalso. cbn [String.prefix] in Hp.
      destruct (ascii_dec "/" c) as [<-|]; [|done].
      destruct url as [|d url]; [done|]. cbn [String.prefix] in Hp.
      destruct (ascii_dec "i" d) as [<-|]; [|done].
      discriminate.
    + intros [= H]. cbn. by apply IH.
  - apply replace_scan_absent.
Qed.

(** *** The languages of the patterns *)

Lemma app_Empty_r s : s +:+ "" = s.
Proof. induction s as [|c s IH]; [done|]. rewrite app_String. by rewrite IH. Qed.

Lemma app_eq_Empty s1 s2 : s1 +:+ s2 = "" → s1 = "" ∧ s2 = "".
Proof. destruct s1; [done|]. rewrite app_String. discriminate. Qed.

Lemma app_eq_String s1 s2 a s :
  s1 +:+ s2 = String a s →
  (s1 = "" ∧ s2 = String a s) ∨ (∃ s1', s1 = String a s1' ∧ s = s1' +:+ s2).
Proof.
  destruct s1 as [|b s1]; [by left|]. rewrite app_String. intros [= -> <-].
  right. by eexists.
Qed.

Lemma nullable_Matches r : Re.nullable r = true ↔ Matches r "".
Proof.
  split.
  - induction r; cbn; try done.
    + intros _. constructor.
    + intros [H1 H2]%andb_true_iff. apply (MCat _ _ "" ""); auto.
    + intros [H|H]%orb_true_iff; [apply MAltL|apply MAltR]; auto.
    + intros _. constructor.
  - intros H. remember "" as s eqn:Hs. induction H; cbn; try done.
    + apply app_eq_Empty in Hs as [-> ->]. rewrite IHMatches1, IHMatches2; done.
    + rewrite IHMatches; done.
    + rewrite IHMatches. apply orb_true_r. done.
Qed.

Lemma Matches_deriv a r s : Matches (Re.deriv a r) s → Matches r (String a s).
Proof.
  revert s. induction r; intros s; cbn [Re.deriv]; try (by inversion 1).
  - destruct (Ascii.eqb_spec a c) as [->|]; inversion 1. constructor.
  - destruct (Re.is_digit a) eqn:Hd; inversion 1. by constructor.
  - destruct (Ascii.eqb_spec a c) as [->|]; inversion 1. by constructor.
  - assert (Hcat : Matches (Re.Cat (Re.deriv a r1) r2) s → Matches (Re.Cat r1 r2) (String a s)).
    { inversion 1; subst. rewrite <- app_String. constructor; auto. }
    destruct (Re.nullable r1) eqn:Hn; [|done].
    inversion 1; subst; [by apply Hcat|].
    apply (MCat r1 r2 "" (String a s)); [by apply nullable_Matches|auto].
  - inversion 1; subst; [apply MAltL|apply MAltR]; auto.
  - inversion 1; subst. rewrite <- app_String. constructor; auto.
Qed.

Lemma deriv_Matches a r s : Matches r (String a s) → Matches (Re.deriv a r) s.
Proof.
  intros H. remember (String a s) as w eqn:Hw. revert a s Hw.
  induction H; intros a0 s0 Hw; cbn [Re.deriv]; try discriminate.
  - injection Hw as -> <-. rewrite Ascii.eqb_refl. constructor.
  - injection Hw as -> <-. rewrite H. constructor.
  - injection Hw as -> <-. destruct (Ascii.eqb_spec a0 c); [done|constructor].
  - apply app_eq_String in Hw as [[-> ->]|(s1' & -> & ->)].
    + apply nullable_Matches in H. rewrite H. apply MAltR. by apply IHMatches2.
    + assert (Matches (Re.Cat (Re.deriv a0 r1) r2) (s1' +:+ s2)).
      { constructor; [by apply IHMatches1|done]. }
      destruct (Re.nullable r1); [by apply MAltL|done].
  - apply MAltL. by apply IHMatches.
  - apply MAltR. by apply IHMatches.
  - apply app_eq_String in Hw as [[-> ->]|(s1' & -> & ->)].
    + by apply (IHMatches2 a0 s0).
    + constructor; [by apply IHMatches1|done].
Qed.

Lemma fullmatch_Matches r s : Re.fullmatch r s = true ↔ Matches r s.
Proof.
  revert r. induction s as [|a s IH]; intros r; cbn [Re.fullmatch].
  - apply nullable_Matches.
  - rewrite IH. split; [apply Matches_deriv|apply deriv_Matches].
Qed.

(** *** The strings of the parts of the patterns *)

Lemma Matches_Cat r1 r2 s :
  Matches (Re.Cat r1 r2) s ↔ ∃ s1 s2, s = s1 +:+ s2 ∧ Matches r1 s1 ∧ Matches r2 s2.
Proof.
  split.
  - inversion 1; subst. by eexists _, _.
  - intros (s1 & s2 & -> & H1 & H2). by constructor.
Qed.

Lemma Matches_Eps s : Matches Re.Eps s ↔ s = "".
Proof. split; [by inversion 1|intros ->; constructor]. Qed.

Lemma Matches_lit p s : Matches (Re.lit p) s ↔ s = p.
Proof.
  revert s. induction p as [|c p IH]; intros s; cbn [Re.lit].
  - apply Matches_Eps.
  - rewrite Matches_Cat. split.
    + intros (s1 & s2 & -> & H1 & H2). inversion H1; subst.
      apply IH in H2 as ->. done.
    + intros ->. exists (String c ""), p. split; [done|]. split; [constructor|by apply IH].
Qed.

Lemma Matches_opt r s : Matches (Re.opt r) s ↔ s = "" ∨ Matches r s.
Proof.
  unfold Re.opt. split.
  - inversion 1; subst; [by right|]. left. by apply Matches_Eps.
  - intros [->|H]; [apply MAltR; constructor|by apply MAltL].
Qed.

Lemma Matches_Digit s :
  Matches Re.Digit s ↔ ∃ a, s = String a "" ∧ Re.is_digit a = true.
Proof.
  split; [inversion 1; subst; by eexists|]. intros (a & -> & Ha). by constructor.
Qed.

Lemma Matches_NotChr c s :
  Matches (Re.NotChr c) s ↔ ∃ a, s = String a "" ∧ Ascii.eqb a c = false.
Proof.
  split.
  - inversion 1; subst. eexists. split; [done|]. by apply Ascii.eqb_neq.
  - intros (a & -> & Ha). constructor. by apply Ascii.eqb_neq.
Qed.

Lemma Matches_Star_Digit s : Matches (Re.Star Re.Digit) s ↔ all_digits s = true.
Proof.
  split.
  - intros H. remember (Re.Star Re.Digit) as r eqn:Hr.
    induction H; try discriminate; [done|].
    injection Hr as ->. apply Matches_Digit in H as (a & -> & Ha).
    rewrite app_String, app_Empty. cbn. rewrite Ha. by apply IHMatches2.
  - induction s as [|a s IH]; [constructor|]. cbn. intros [Ha Hs]%andb_true_iff.
    apply (MStarApp _ (String a "") s); [by constructor|by apply IH].
Qed.

Lemma Matches_Star_NotChr c s : Matches (Re.Star (Re.NotChr c)) s ↔ lacks c s = true.
Proof.
  split.
  - intros H. remember (Re.Star (Re.NotChr c)) as r eqn:Hr.
    induction H; try discriminate; [done|].
    injection Hr as ->. apply Matches_NotChr in H as (a & -> & Ha).
    rewrite app_String, app_Empty. cbn. rewrite Ha. by apply IHMatches2.
  - induction s as [|a s IH]; [constructor|]. cbn. intros [Ha Hs]%andb_true_iff.
    apply (MStarApp _ (String a "") s); [|by apply IH].
    apply Matches_NotChr. exists a. split; [done|]. by destruct (Ascii.eqb a c).
Qed.

Lemma Matches_plus_Digit s :
  Matches (Re.plus Re.Digit) s ↔ s ≠ "" ∧ all_digits s = true.
Proof.
  unfold Re.plus. rewrite Matches_Cat. split.
  - intros (s1 & s2 & -> & (a & -> & Ha)%Matches_Digit & H2).
    apply Matches_Star_Digit in H2. rewrite app_String, app_Empty. cbn.
    by rewrite Ha, H2.
  - intros [Hne Hd]. destruct s as [|a s]; [done|].
    cbn in Hd. apply andb_true_iff in Hd as [Ha Hs].
    exists (String a ""), s. split; [done|].
    split; [by constructor|by apply Matches_Star_Digit].
Qed.

Lemma Matches_plus_NotChr c s :
  Matches (Re.plus (Re.NotChr c)) s ↔ s ≠ "" ∧ lacks c s = true.
Proof.
  unfold Re.plus. rewrite Matches_Cat. split.
  - intros (s1 & s2 & -> & (a & -> & Ha)%Matches_NotChr & H2).
    apply Matches_Star_NotChr in H2. rewrite app_String, app_Empty. cbn.
    by rewrite Ha, H2.
  - intros [Hne Hd]. destruct s as [|a s]; [done|].
    cbn in Hd. apply andb_true_iff in Hd as [Ha Hs].
    exists (String a ""), s. split; [done|].
    split; [|by apply Matches_Star_NotChr].
    apply Matches_NotChr. exists a. split; [done|]. by destruct (Ascii.eqb a c).
Qed.

(** The head of both patterns, followed by the rest. *)
Lemma Matches_site rs s :
  Matches (Re.seq (site_re ++ rs)) s ↔
  ∃ (secure www : bool) rest,
    s = "http" +:+ (if secure then "s" else "") +:+ "://"
        +:+ (if www then "www." else "") +:+ "ilibrary.ru" +:+ rest
    ∧ Matches (Re.seq rs) rest.
Proof.
  unfold site_re. cbn [app Re.seq]. split.
  - intros H.
    apply Matches_Cat in H as (s1 & s2 & -> & ->%Matches_lit & H).
    apply Matches_Cat in H as (s3 & s4 & -> & Hs%Matches_opt & H).
    apply Matches_Cat in H as (s5 & s6 & -> & ->%Matches_lit & H).
    apply Matches_Cat in H as (s7 & s8 & -> & Hw%Matches_opt & H).
    apply Matches_Cat in H as (s9 & rest & -> & ->%Matches_lit & H).
    assert (Hs' : ∃ secure : bool, s3 = if secure then "s" else "").
    { destruct Hs as [->|Hs]; [by exists false|]. exists true. by inversion Hs. }
    assert (Hw' : ∃ www : bool, s7 = if www then "www." else "").
    { destruct Hw as [->|Hw]; [by exists false|]. apply Matches_lit in Hw as ->.
      by exists true. }
    destruct Hs' as [secure ->], Hw' as [www ->]. by exists secure, www, rest.
  - intros (secure & www & rest & -> & H).
    apply Matches_Cat. eexists _, _. split; [reflexivity|]. split; [by apply Matches_lit|].
    apply Matches_Cat. eexists _, _. split; [reflexivity|]. split.
    { apply Matches_opt. destruct secure; [right; constructor|by left]. }
    apply Matches_Cat. eexists _, _. split; [reflexivity|]. split; [by apply Matches_lit|].
    apply Matches_Cat. eexists _, _. split; [reflexivity|]. split.
    { apply Matches_opt. destruct www; [right; by apply Matches_lit|by left]. }
    apply Matches_Cat. eexists _, _. split; [reflexivity|]. split; [by apply Matches_lit|].
    done.
Qed.

Lemma chop_newline_cons c d s :
  Re.chop_newline (String c (String d s)) = String c <$> Re.chop_newline (String d s).
Proof. reflexivity. Qed.

Lemma chop_newline_app s' : Re.chop_newline (s' +:+ nl) = Some s'.
Proof.
  induction s' as [|a r IH]; [done|].
  rewrite app_String. destruct (r +:+ nl) as [|d s] eqn:Hr.
  - by destruct r.
  - by rewrite chop_newline_cons, IH.
Qed.

Lemma chop_newline_Some s s' : Re.chop_newline s = Some s' ↔ s = s' +:+ nl.
Proof.
  split; [|intros ->; apply chop_newline_app].
  revert s'. induction s as [|c s IH]; intros s'; [done|].
  destruct s as [|d s].
  - cbn [Re.chop_newline].
    destruct (Ascii.eqb_spec c Re.newline) as [->|Hne]; [|done]. by intros [= <-].
  - rewrite chop_newline_cons.
    destruct (Re.chop_newline (String d s)) as [r|]; [|done].
    cbn. intros [= <-]. rewrite app_String. f_equal. by apply IH.
Qed.

Lemma match_anchored_Matches r s :
  Re.match_anchored r s = true ↔ Matches r s ∨ ∃ s', s = s' +:+ nl ∧ Matches r s'.
Proof.
  unfold Re.match_anchored. rewrite orb_true_iff, fullmatch_Matches. split.
  - intros [H|H]; [by left|]. right.
    destruct (Re.chop_newline s) as [s'|] eqn:Hc; [|done].
    apply chop_newline_Some in Hc. apply fullmatch_Matches in H. by exists s'.
  - intros [H|(s' & -> & H)]; [by left|]. right.
    rewrite chop_newline_app. by apply fullmatch_Matches.
Qed.

Lemma Matches_text_page s :
  Matches TEXT_PAGE_RE s ↔
  ∃ (secure www : bool) id page,
    id ≠ "" ∧ all_digits id = true ∧ page ≠ "" ∧ all_digits page = true
    ∧ s = text_url secure www id page.
Proof.
  unfold TEXT_PAGE_RE. rewrite Matches_site. cbn [Re.seq]. split.
  - intros (secure & www & rest & -> & H).
    apply Matches_Cat in H as (s1 & s2 & -> & ->%Matches_lit & H).
    apply Matches_Cat in H as (id & s4 & -> & [Hid1 Hid2]%Matches_plus_Digit & H).
    apply Matches_Cat in H as (s5 & s6 & -> & ->%Matches_lit & H).
    apply Matches_Cat in H as (page & s8 & -> & [Hp1 Hp2]%Matches_plus_Digit & H).
    apply Matches_Cat in H as (s9 & s10 & -> & ->%Matches_lit & ->%Matches_Eps).
    exists secure, www, id, page. do 4 (split; [done|]).
    unfold text_url. by destruct secure, www.
  - intros (secure & www & id & page & Hid1 & Hid2 & Hp1 & Hp2 & ->).
    exists secure, www, ("/text/" +:+ id +:+ "/p." +:+ page +:+ "/index.html").
    split; [unfold text_url; by destruct secure, www|].
    apply Matches_Cat. eexists _, _. split; [reflexivity|]. split; [by apply Matches_lit|].
    apply Matches_Cat. eexists _, _. split; [reflexivity|].
    split; [by apply Matches_plus_Digit|].
    apply Matches_Cat. eexists _, _. split; [reflexivity|]. split; [by apply Matches_lit|].
    apply Matches_Cat. eexists _, _. split; [reflexivity|].
    split; [by apply Matches_plus_Digit|].
    apply Matches_Cat. eexists _, "". split; [by rewrite app_Empty_r|].
    split; [by apply Matches_lit|constructor].
Qed.

Lemma Matches_author_page s :
  Matches AUTHOR_PAGE_RE s ↔
  ∃ (secure www : bool) slug,
    slug ≠ "" ∧ lacks "/" slug = true ∧ s = author_url secure www slug.
Proof.
  unfold AUTHOR_PAGE_RE. rewrite Matches_site. cbn [Re.seq]. split.
  - intros (secure & www & rest & -> & H).
    apply Matches_Cat in H as (s1 & s2 & -> & ->%Matches_lit & H).
    apply Matches_Cat in H as (slug & s4 & -> & [Hs1 Hs2]%Matches_plus_NotChr & H).
    apply Matches_Cat in H as (s9 & s10 & -> & ->%Matches_lit & ->%Matches_Eps).
    exists secure, www, slug. do 2 (split; [done|]).
    unfold author_url. by destruct secure, www.
  - intros (secure & www & slug & Hs1 & Hs2 & ->).
    exists secure, www, ("/author/" +:+ slug +:+ "/index.html").
    split; [unfold author_url; by destruct secure, www|].
    apply Matches_Cat. eexists _, _. split; [reflexivity|]. split; [by apply Matches_lit|].
    apply Matches_Cat. eexists _, _. split; [reflexivity|].
    split; [by apply Matches_plus_NotChr|].
    apply Matches_Cat. eexists _, "". split; [by rewrite app_Empty_r|].
    split; [by apply Matches_lit|constructor].
Qed.

(** X17. The text pages.  Of the URLs made of ASCII characters,
    [TEXT_PAGE_RE] matches exactly those made of [http] or [https], the
    domain with or without [www.], [/text/], a number, [/p.], a number and
    [/index.html], and the same followed by one newline.  (Outside ASCII the
    pattern takes more: [\d] is any decimal digit of Unicode.) *)
Theorem is_text_page_shape url :
  isascii url = true →
  is_text_page url = true ↔
  ∃ (secure www : bool) id page,
    id ≠ "" ∧ all_digits id = true ∧ page ≠ "" ∧ all_digits page = true
    ∧ (url = text_url secure www id page ∨ url = text_url secure www id page +:+ nl).
Proof.
  intros _.
  unfold is_text_page. rewrite match_anchored_Matches, Matches_text_page. split.
  - intros [(secure & www & id & page & ? & ? & ? & ? & ->)|(s' & -> & H)].
    + exists secure, www, id, page. do 4 (split; [done|]). by left.
    + apply Matches_text_page in H as (secure & www & id & page & ? & ? & ? & ? & ->).
      exists secure, www, id, page. do 4 (split; [done|]). by right.
  - intros (secure & www & id & page & ? & ? & ? & ? & [->| ->]).
    + left. by exists secure, www, id, page.
    + right. eexists. split; [done|]. apply Matches_text_page.
      by exists secure, www, id, page.
Qed.

(** X18. The author pages.  The author pattern matches exactly the URLs
    made of [http] or [https], the domain with or without [www.],
    [/author/], a slug that is not empty and has no slash, and
    [/index.html], and the same followed by one newline. *)
Theorem is_author_page_shape url :
  is_author_page url = true ↔
  ∃ (secure www : bool) slug,
    slug ≠ "" ∧ lacks "/" slug = true
    ∧ (url = author_url secure www slug ∨ url = author_url secure www slug +:+ nl).
Proof.
  unfold is_author_page. rewrite match_anchored_Matches, Matches_author_page. split.
  - intros [(secure & www & slug & ? & ? & ->)|(s' & -> & H)].
    + exists secure, www, slug. do 2 (split; [done|]). by left.
    + apply Matches_author_page in H as (secure & www & slug & ? & ? & ->).
      exists secure, www, slug. do 2 (split; [done|]). by right.
  - intros (secure & www & slug & ? & ? & [->| ->]).
    + left. by exists secure, www, slug.
    + right. eexists. split; [done|]. apply Matches_author_page.
      by exists secure, www, slug.
Qed.

Lemma text_url_not_author_url secure www id page t1 secure' www' slug t2 :
  text_url secure www id page +:+ t1 ≠ author_url secure' www' slug +:+ t2.
Proof.
  unfold text_url, author_url. intros H.
  destruct secure, www, secure', www'; vm_compute in H; discriminate.
Qed.

(** X19. The two kinds of URL are apart: a URL that matches the text-page
    pattern does not match the author pattern. *)
Theorem text_page_not_author_page url :
  is_text_page url = true → is_author_page url = false.
Proof.
  unfold is_text_page, is_author_page. intros Ht.
  apply not_true_is_false. intros Ha.
  apply match_anchored_Matches in Ht, Ha.
  assert (Hta : ∃ secure www id page t1 secure' www' slug t2,
            text_url secure www id page +:+ t1 = author_url secure' www' slug +:+ t2).
  { destruct Ht as [Ht|(s1 & -> & Ht)];
      apply Matches_text_page in Ht as (secure & www & id & page & _ & _ & _ & _ & Ht);
      (destruct Ha as [Ha|(s2 & Hs2 & Ha)];
       apply Matches_author_page in Ha as (secure' & www' & slug & _ & _ & Ha));
      subst.
    - exists secure, www, id, page, "", secure', www', slug, "". by rewrite !app_Empty_r.
    - exists secure, www, id, page, "", secure', www', slug, nl. by rewrite app_Empty_r.
    - exists secure, www, id, page, nl, secure', www', slug, "". by rewrite app_Empty_r.
    - by exists secure, www, id, page, nl, secure', www', slug, nl. }
  destruct Hta as (? & ? & ? & ? & ? & ? & ? & ? & ? & H).
  by apply text_url_not_author_url in H.
Qed.

(** *** The works page of an author *)

Lemma works_url_of_plain_slug_tail secure www slug tail :
  lacks "/" slug = true →
  String.prefix "index.html" slug = false →
  tail = "" ∨ tail = nl →
  author_to_all_works_url (author_url secure www slug +:+ tail)
  = works_url secure www slug +:+ tail.
Proof.
  intros Hslash Hslug Htail.
  assert (Hp : String.prefix "/index.html" (String "/" (slug +:+ "/index.html" +:+ tail)) = false).
  { change (String.prefix "index.html" (slug +:+ String "/" ("index.html" +:+ tail)) = false).
    by rewrite prefix_before_char. }
  assert (Hs : Str.replace_scan "/index.html" "/l.all/index.html" 0
                 (slug +:+ "/index.html" +:+ tail)
               = slug +:+ "/l.all/index.html" +:+ tail).
  { rewrite replace_scan_lacks by done. by destruct Htail as [-> | ->]. }
  unfold author_to_all_works_url, Str.replace, author_url, works_url.
  destruct secure, www;
    rewrite !string_app_assoc, !app_String, !app_Empty, ?app_String, ?app_Empty;
    repeat (rewrite replace_scan_keep by reflexivity);
    rewrite (replace_scan_keep _ _ _ _ Hp), Hs; reflexivity.
Qed.

(** X16. The works page of an author.  A URL that matches the author
    pattern is an author URL, possibly followed by a newline; when its slug
    does not begin with [index.html], [author_to_all_works_url] gives the
    works-list URL of the same scheme, domain and slug, followed by the same
    newline if there was one. *)
Theorem all_works_url_of_author_page url :
  is_author_page url = true →
  ∃ (secure www : bool) slug tail,
    (tail = "" ∨ tail = nl)
    ∧ slug ≠ "" ∧ lacks "/" slug = true
    ∧ url = author_url secure www slug +:+ tail
    ∧ (String.prefix "index.html" slug = false →
       author_to_all_works_url url = works_url secure www slug +:+ tail).
Proof.
  unfold is_author_page. intros H. apply match_anchored_Matches in H.
  assert (Hu : ∃ (secure www : bool) slug tail,
            (tail = "" ∨ tail = nl) ∧ slug ≠ "" ∧ lacks "/" slug = true
            ∧ url = author_url secure www slug +:+ tail).
  { destruct H as [H|(s' & -> & H)];
      apply Matches_author_page in H as (secure & www & slug & ? & ? & ->).
    - exists secure, www, slug, "". rewrite app_Empty_r. by repeat split; [left|..].
    - exists secure, www, slug, nl. by repeat split; [right|..]. }
  destruct Hu as (secure & www & slug & tail & Ht & Hne & Hl & ->).
  exists secure, www, slug, tail. do 4 (split; [done|]).
  intros Hp. by apply works_url_of_plain_slug_tail.
Qed.

(** *** The document identifier *)

Example basename_dump : basename "/home/u/task1/dump/12.txt" = "12.txt".
Proof. reflexivity. Qed.
Example basename_dir : basename "a/b/" = "".
Proof. reflexivity. Qed.
Example splitext_plain : splitext_root "12.txt" = "12".
Proof. reflexivity. Qed.
Example splitext_hidden : splitext_root ".bashrc" = ".bashrc".
Proof. reflexivity. Qed.
Example splitext_two : splitext_root "a.tar.gz" = "a.tar".
Proof. reflexivity. Qed.
Example splitext_dots : splitext_root "..." = "...".
Proof. reflexivity. Qed.

Lemma pretty_N_char_digit x : Re.is_digit (pretty_N_char x) = true.
Proof. unfold pretty_N_char. by repeat case_match. Qed.

Lemma pretty_N_go_digits x s :
  all_digits s = true → all_digits (pretty_N_go x s) = true.
Proof.
  revert s. induction (N.lt_wf_0 x) as [x _ IH]; intros s Hs.
  assert (x = 0 ∨ 0 < x)%N as [->|Hx] by lia; [by rewrite pretty_N_go_0|].
  rewrite pretty_N_go_step by done. apply IH; [by apply N.div_lt|].
  cbn. by rewrite pretty_N_char_digit.
Qed.

Lemma pretty_N_go_nonempty x s : s ≠ "" → pretty_N_go x s ≠ "".
Proof.
  revert s. induction (N.lt_wf_0 x) as [x _ IH]; intros s Hs.
  assert (x = 0 ∨ 0 < x)%N as [->|Hx] by lia; [by rewrite pretty_N_go_0|].
  rewrite pretty_N_go_step by done. apply IH; [by apply N.div_lt|done].
Qed.

Lemma pretty_nat_digits (n : nat) : all_digits (pretty n) = true ∧ pretty n ≠ "".
Proof.
  unfold pretty, pretty_nat, pretty, pretty_N. case_decide; [done|].
  split; [by apply pretty_N_go_digits|].
  rewrite pretty_N_go_step by lia. by apply pretty_N_go_nonempty.
Qed.

Lemma digits_lack c s : Re.is_digit c = false → all_digits s = true → lacks c s = true.
Proof.
  intros Hc. induction s as [|a s IH]; [done|]. cbn.
  intros [Ha Hs]%andb_true_iff. rewrite IH by done.
  destruct (Ascii.eqb_spec a c) as [->|]; [congruence|done].
Qed.

Lemma lacks_app c s1 s2 : lacks c (s1 +:+ s2) = lacks c s1 && lacks c s2.
Proof.
  induction s1 as [|a s1 IH]; [done|]. rewrite app_String. cbn.
  by rewrite IH, andb_assoc.
Qed.

Lemma basename_join dir name :
  lacks "/" name = true → basename (dir +:+ "/" +:+ name) = name.
Proof.
  intros Hn. induction dir as [|c dir IH].
  - rewrite app_Empty, app_String, app_Empty. cbn [basename]. by rewrite Hn.
  - rewrite app_String. cbn [basename].
    assert (Hl : lacks "/" (dir +:+ "/" +:+ name) = false).
    { rewrite lacks_app. apply andb_false_intro2. done. }
    by rewrite Hl.
Qed.

Lemma splitext_root_from_ext before stem ext :
  lacks "." stem = true → lacks "." ext = true →
  (before = true ∨ stem ≠ "") →
  splitext_root_from before (stem +:+ "." +:+ ext) = stem.
Proof.
  revert before. induction stem as [|c stem IH]; intros before Hs He Hb.
  - destruct Hb as [->|]; [|done].
    rewrite app_Empty, app_String, app_Empty. cbn [splitext_root_from].
    by rewrite He.
  - rewrite app_String. cbn [splitext_root_from].
    cbn in Hs. apply andb_true_iff in Hs as [Hc Hs].
    apply negb_true_iff in Hc. rewrite Hc. cbn [andb negb].
    f_equal. apply IH; [done..|]. left. apply orb_true_r.
Qed.

(** X20. The identifier of a document.  From the path of the document
    that the crawler names by the number [num], in any directory,
    [file_id_from_path] gives the decimal numeral of [num]; different
    documents of the crawler get different identifiers. *)
Theorem file_id_of_out_file dir (num : nat) :
  file_id_from_path (dir +:+ "/" +:+ pretty num +:+ ".txt") = pretty num
  ∧ file_id_from_path (out_file num) = pretty num
  ∧ ∀ num' : nat, file_id_from_path (out_file num) = file_id_from_path (out_file num') →
                  num = num'.
Proof.
  destruct (pretty_nat_digits num) as [Hd Hne].
  assert (Hid : ∀ d, file_id_from_path (d +:+ "/" +:+ pretty num +:+ ".txt") = pretty num).
  { intros d. unfold file_id_from_path.
    rewrite basename_join.
    - unfold splitext_root.
      change (pretty num +:+ ".txt") with (pretty num +:+ "." +:+ "txt").
      rewrite splitext_root_from_ext; [by case_match|by apply digits_lack|done|by right].
    - rewrite lacks_app. rewrite (digits_lack "/") by done. done. }
  split; [apply Hid|]. split; [apply Hid|].
  intros num' H. unfold out_file in H.
  destruct (pretty_nat_digits num') as [Hd' Hne'].
  assert (Hid' : file_id_from_path (OUT_DIR +:+ "/" +:+ pretty num' +:+ ".txt") = pretty num').
  { unfold file_id_from_path. rewrite basename_join.
    - unfold splitext_root.
      change (pretty num' +:+ ".txt") with (pretty num' +:+ "." +:+ "txt").
      rewrite splitext_root_from_ext; [by case_match|by apply digits_lack|done|by right].
    - rewrite lacks_app. rewrite (digits_lack "/") by done. done. }
  rewrite Hid, Hid' in H. by apply (inj pretty) in H.
Qed.

(** ** Broken streams *)

Lemma reports_app tr1 tr2 : reports (tr1 ++ tr2) = reports tr1 ++ reports tr2.
Proof. unfold reports. apply omap_app. Qed.

Lemma bind_raised {A B} (m : M A) (f : A → M B) t e :
  res (m t) = Raise e → (m ≫= f) t = MkRun (Raise e) (clock (m t)) (trace (m t)).
Proof. intros H. unfold mbind, M_bind. by rewrite H. Qed.

Lemma finally_close {A} (body : M A) t :
  finally body (emit EvClose) t
  = MkRun (res (body t)) (clock (body t)) (trace (body t) ++ [EvClose]).
Proof. reflexivity. Qed.

(** *** The fetcher on a stream that breaks *)

Section Broken.
Variable server : nat → string → Response.
Variable breaks : nat → string → bool.
Variable decode : string → list byte → option string.
Variable decode_utf8 : list byte → string.
Variable anchors_href : string → list string.
Variable urljoin : string → string → string.

#[local] Abbreviation fetch_html := (fetch_html server decode decode_utf8).
#[local] Abbreviation page := (page server decode decode_utf8).
#[local] Abbreviation get_author_pages :=
  (get_author_pages server decode decode_utf8 anchors_href urljoin).
#[local] Abbreviation collect_authors :=
  (collect_authors server decode decode_utf8 anchors_href urljoin).
#[local] Abbreviation collect_text_page_urls :=
  (collect_text_page_urls server decode decode_utf8 anchors_href urljoin).
#[local] Abbreviation download_loop := (download_loop server decode decode_utf8).
#[local] Abbreviation download_pages := (download_pages server decode decode_utf8).
#[local] Abbreviation main := (main server decode decode_utf8 anchors_href urljoin).
#[local] Abbreviation cut_short := (Stream.cut_short server breaks).
#[local] Abbreviation stream_fetch_html :=
  (Stream.fetch_html server breaks decode decode_utf8).
#[local] Abbreviation stream_get_author_pages :=
  (Stream.get_author_pages server breaks decode decode_utf8 anchors_href urljoin).
#[local] Abbreviation stream_collect_authors :=
  (Stream.collect_authors server breaks decode decode_utf8 anchors_href urljoin).
#[local] Abbreviation stream_collect_text_page_urls :=
  (Stream.collect_text_page_urls server breaks decode decode_utf8 anchors_href urljoin).
#[local] Abbreviation stream_download_loop :=
  (Stream.download_loop server breaks decode decode_utf8).
#[local] Abbreviation stream_download_pages :=
  (Stream.download_pages server breaks decode decode_utf8).
#[local] Abbreviation stream_main :=
  (Stream.main server breaks decode decode_utf8 anchors_href urljoin).

(** The loop over a stream that breaks does what the loop over the same
    chunks on a stream that ends does, and raises at the end of the chunks
    if the cap has not stopped it before. *)
Lemma stream_iter_content url stream broken chunks total t :
  (total ≤ MAX_BYTES)%Z →
  Stream.iter_content url stream broken chunks total t
  = if broken && (total + total_bytes stream <=? MAX_BYTES)%Z
    then MkRun (Raise ChunkedEncodingError) t
               (trace (iter_content url stream chunks total t))
    else iter_content url stream chunks total t.
Proof.
  revert chunks total.
  induction stream as [|chunk stream IH]; intros chunks total Htot.
  - cbn [Stream.iter_content iter_content total_bytes foldr].
    rewrite Z.add_0_r. destruct (Z.leb_spec total MAX_BYTES); [|lia].
    rewrite andb_true_r. by destruct broken.
  - cbn [Stream.iter_content iter_content]. rewrite !emit_bind.
    rewrite total_bytes_cons.
    pose proof (total_bytes_nonneg stream) as Hnn.
    destruct chunk as [|b chunk].
    + rewrite (IH chunks total Htot).
      change (len []) with 0%Z. rewrite Z.add_0_l.
      by destruct (broken && _).
    + set (c := b :: chunk) in *.
      destruct (Z.ltb_spec MAX_BYTES (total + len c)) as [Hbig|Hok].
      * destruct (Z.leb_spec (total + (len c + total_bytes stream)) MAX_BYTES); [lia|].
        by rewrite andb_false_r.
      * rewrite (IH (chunks ++ [c]) (total + len c)%Z Hok).
        rewrite Z.add_assoc. by destruct (broken && _).
Qed.

(** A fetch that is cut short leaves the events of the fetch on a stream
    that ends, close included, and raises; any other fetch is the same on
    both networks. *)
Lemma stream_fetch_html_run url t :
  stream_fetch_html url t
  = if cut_short t url
    then MkRun (Raise ChunkedEncodingError) (S t) (trace (fetch_html url t))
    else fetch_html url t.
Proof.
  unfold Stream.fetch_html, fetch_html, polite_sleep, Stream.cut_short.
  rewrite !emit_bind.
  rewrite (bind_res (Stream.session_get server breaks url) _ t
             (server t url, breaks t url)) by reflexivity.
  rewrite (bind_res (session_get server url) _ t (server t url)) by reflexivity.
  cbn [Stream.session_get session_get res clock trace].
  destruct (server t url) as [|ct body enc]; [done|].
  unfold declares_html.
  destruct (Str.contains "text/html" (Str.lower (default "" ct))); cbn [negb andb];
    [|done].
  destruct (iter_content_run url body [] 0%Z (S t)) as (got & Hr & Hc & _).
  rewrite (bind_res _ _ _ _ Hr), Hc, emit_bind.
  assert (HF : finally (Stream.iter_content url body (breaks t url) [] 0%Z)
                       (emit EvClose) (S t)
               = MkRun (if breaks t url && (total_bytes body <=? MAX_BYTES)%Z
                        then Raise ChunkedEncodingError else Ret got)
                       (S t)
                       (trace (iter_content url body [] 0%Z (S t)) ++ [EvClose])).
  { rewrite finally_close, stream_iter_content by done. rewrite Z.add_0_l.
    destruct (breaks t url && _); cbn [res clock trace]; by rewrite ?Hr, ?Hc. }
  destruct (breaks t url && _).
  - rewrite (bind_raise _ _ _ _ _ _ HF). cbn [res clock trace].
    by destruct got.
  - rewrite (bind_run _ _ _ _ _ _ HF). cbn [res clock trace].
    destruct got; cbn [mret M_ret res clock trace]; by rewrite ?app_nil_r.
Qed.

(** *** Runs that are cut off *)

Lemma cut_off_refl {A} (m : M A) : cut_off m m.
Proof. intros t. by left. Qed.

Lemma cut_off_bind {A B} (m' m : M A) (k' k : A → M B) :
  cut_off m' m → (∀ a, cut_off (k' a) (k a)) → cut_off (m' ≫= k') (m ≫= k).
Proof.
  intros Hm Hk t. destruct (Hm t) as [Heq|(Hr & Hp & Hl)].
  - unfold mbind, M_bind. rewrite Heq.
    destruct (res (m t)) as [a|e]; [|by left].
    destruct (Hk a (clock (m t))) as [-> |(Hr' & Hp' & Hl')]; [by left|right].
    cbn [res trace]. split; [done|]. split; [by apply prefix_app|].
    by rewrite last_app, Hl'.
  - right. unfold mbind, M_bind. rewrite Hr. cbn [res trace]. split; [done|].
    split; [|done].
    etrans; [exact Hp|]. destruct (res (m t)); cbn [trace]; [|done].
    by apply prefix_app_r.
Qed.

(** The fetch on a stream that ends, of a response that declares HTML and
    holds no more than [MAX_BYTES] bytes, ends with the close. *)
Lemma fetch_html_closes_last url t ct body enc :
  server t url = Resp ct body enc →
  declares_html ct = true →
  (total_bytes body ≤ MAX_BYTES)%Z →
  last (trace (fetch_html url t)) = Some EvClose.
Proof.
  intros Hs Hd Hb. unfold fetch_html, polite_sleep. rewrite emit_bind.
  rewrite (bind_res (session_get server url) _ t (server t url)) by reflexivity.
  cbn [session_get res clock trace]. rewrite Hs.
  unfold declares_html in Hd. rewrite Hd. cbn [negb].
  destruct (iter_content_run url body [] 0%Z (S t)) as (got & Hr & Hc & _).
  rewrite (bind_res _ _ _ _ Hr), Hc, emit_bind. cbn [trace].
  change (EvSleep :: [EvGet url] ++ ?x ++ EvClose :: ?y)
    with ([EvSleep; EvGet url] ++ x ++ [EvClose] ++ y).
  rewrite !last_app. by destruct got.
Qed.

Lemma cut_off_fetch_html url : cut_off (stream_fetch_html url) (fetch_html url).
Proof.
  intros t. rewrite stream_fetch_html_run.
  destruct (cut_short t url) eqn:Hcut; [right|by left].
  split; [done|]. split; [done|]. cbn [trace].
  unfold Stream.cut_short in Hcut.
  destruct (server t url) as [|ct body enc] eqn:Hs; [done|].
  apply andb_prop in Hcut as [[Hd _]%andb_prop Hb].
  apply (fetch_html_closes_last url t ct body enc Hs Hd). lia.
Qed.

Lemma cut_off_get_author_pages : cut_off stream_get_author_pages get_author_pages.
Proof.
  apply cut_off_bind; [apply cut_off_fetch_html|]. intros html. apply cut_off_refl.
Qed.

Lemma cut_off_collect_authors limit i author_pages collected (seen : gset string) :
  cut_off (stream_collect_authors limit i author_pages collected seen)
          (collect_authors limit i author_pages collected seen).
Proof.
  revert i collected seen.
  induction author_pages as [|a rest IH]; intros i collected seen;
    cbn [Stream.collect_authors collect_authors].
  - apply cut_off_refl.
  - case_match; [apply cut_off_refl|].
    apply cut_off_bind; [apply cut_off_fetch_html|].
    intros [html|]; [|apply IH].
    destruct (Str.truthy html); [|apply IH].
    destruct (collect_links _ _ _ _) as [collected' seen'].
    apply cut_off_bind; [apply cut_off_refl|]. intros _. apply IH.
Qed.

Lemma cut_off_collect_text_page_urls limit :
  cut_off (stream_collect_text_page_urls limit) (collect_text_page_urls limit).
Proof.
  apply cut_off_bind; [apply cut_off_get_author_pages|]. intros authors.
  apply cut_off_bind; [apply cut_off_refl|]. intros _. apply cut_off_collect_authors.
Qed.

Lemma cut_off_download_loop need urls saved lines :
  cut_off (stream_download_loop need urls saved lines)
          (download_loop need urls saved lines).
Proof.
  revert saved lines. induction urls as [|url rest IH]; intros saved lines;
    cbn [Stream.download_loop download_loop].
  - apply cut_off_refl.
  - case_match; [apply cut_off_refl|].
    apply cut_off_bind; [apply cut_off_fetch_html|].
    intros [html|]; [|apply IH].
    destruct (Str.truthy html); [|apply IH].
    case_match.
    + apply cut_off_bind; [apply cut_off_refl|]. intros _. apply IH.
    + apply cut_off_bind; [apply cut_off_refl|]. intros _.
      apply cut_off_bind; [apply cut_off_refl|]. intros _. apply IH.
Qed.

Lemma cut_off_download_pages urls need :
  cut_off (stream_download_pages urls need) (download_pages urls need).
Proof.
  apply cut_off_bind; [apply cut_off_refl|]. intros _.
  apply cut_off_bind; [apply cut_off_download_loop|]. intros [saved lines].
  apply cut_off_refl.
Qed.

Lemma cut_off_main : cut_off stream_main main.
Proof.
  apply cut_off_bind; [apply cut_off_collect_text_page_urls|]. intros urls.
  apply cut_off_bind; [apply cut_off_refl|]. intros _.
  apply cut_off_bind; [apply cut_off_refl|]. intros _.
  apply cut_off_bind; [apply cut_off_download_pages|]. intros saved.
  apply cut_off_refl.
Qed.

(** *** Runs that stop at a broken stream *)

#[local] Abbreviation stops_at_break := (stops_at_break server breaks).

Lemma stops_at_break_quiet {A} (m : M A) :
  (∀ t, clock (m t) = t ∧ gets (trace (m t)) = []
        ∧ res (m t) ≠ Raise ChunkedEncodingError) →
  stops_at_break m.
Proof.
  intros H t. destruct (H t) as (Hc & Hg & Hr). rewrite Hc, Hg.
  split; [cbn; lia|]. split; [done|]. done.
Qed.

Lemma stops_at_break_ret {A} (a : A) : stops_at_break (mret a).
Proof. by apply stops_at_break_quiet. Qed.

Lemma stops_at_break_raise {A} e :
  e ≠ ChunkedEncodingError → stops_at_break (raise (A:=A) e).
Proof. intros He. apply stops_at_break_quiet. intros t. cbn. naive_solver. Qed.

Lemma stops_at_break_emit e : (∀ url, e ≠ EvGet url) → stops_at_break (emit e).
Proof.
  intros He. apply stops_at_break_quiet. intros t. cbn.
  split; [done|]. split; [|done]. destruct e; try done. by destruct (He url).
Qed.

Lemma stops_at_break_print msg : stops_at_break (print msg).
Proof. by apply stops_at_break_emit. Qed.

Lemma stops_at_break_bind {A B} (m : M A) (k : A → M B) :
  stops_at_break m → (∀ a, stops_at_break (k a)) → stops_at_break (m ≫= k).
Proof.
  intros Hm Hk t. destruct (Hm t) as (Cm & Bm & Rm).
  unfold mbind, M_bind. destruct (res (m t)) as [a|e] eqn:Hres; cbn [res clock trace].
  - destruct (Hk a (clock (m t))) as (Ck & Bk & Rk).
    rewrite gets_app, length_app. split; [lia|]. split.
    + intros i url Hi Hcut. apply lookup_app_Some in Hi as [Hi|[Hle Hi]].
      * by destruct (Bm i url Hi Hcut).
      * destruct (Bk _ url Hi) as [-> ->].
        { rewrite Cm. by replace (t + length (gets (trace (m t)))
                                  + (i - length (gets (trace (m t)))))%nat
                         with (t + i)%nat by lia. }
        split; [done|lia].
    + intros Hr. destruct (Rk Hr) as (i & url & Hi & Hcut).
      exists (length (gets (trace (m t))) + i)%nat, url. split.
      * rewrite lookup_app_r by lia.
        by replace (length (gets (trace (m t))) + i - length (gets (trace (m t))))%nat
             with i by lia.
      * rewrite Cm in Hcut. by rewrite Nat.add_assoc.
  - split; [done|]. split.
    + intros i url Hi Hcut. destruct (Bm i url Hi Hcut) as [[= ->] ?]. done.
    + intros [= ->]. by apply Rm.
Qed.

Lemma stops_at_break_fetch_html url : stops_at_break (stream_fetch_html url).
Proof.
  intros t. rewrite stream_fetch_html_run.
  destruct (fetch_html_total server decode decode_utf8 url t) as (v & tr & Hf & _).
  pose proof (fetch_html_gets server decode decode_utf8 url t) as Hg.
  assert (Hg' : gets (trace (if cut_short t url
                             then MkRun (Raise ChunkedEncodingError) (S t)
                                        (trace (fetch_html url t))
                             else fetch_html url t)) = [url]).
  { by destruct (cut_short t url). }
  rewrite Hg'. split; [destruct (cut_short t url); [cbn; lia|rewrite Hf; cbn; lia]|].
  split.
  - intros [|i] u Hi Hcut; [|done]. injection Hi as <-.
    rewrite Nat.add_0_r in Hcut. by rewrite Hcut.
  - intros Hr. exists 0%nat, url. split; [done|]. rewrite Nat.add_0_r.
    destruct (cut_short t url); [done|]. by rewrite Hf in Hr.
Qed.

Lemma stops_at_break_get_author_pages : stops_at_break stream_get_author_pages.
Proof.
  apply stops_at_break_bind; [apply stops_at_break_fetch_html|].
  intros [html|]; [|by apply stops_at_break_raise].
  destruct (Str.truthy html); [apply stops_at_break_ret|by apply stops_at_break_raise].
Qed.

Lemma stops_at_break_collect_authors limit i author_pages collected (seen : gset string) :
  stops_at_break (stream_collect_authors limit i author_pages collected seen).
Proof.
  revert i collected seen.
  induction author_pages as [|a rest IH]; intros i collected seen;
    cbn [Stream.collect_authors].
  - apply stops_at_break_ret.
  - case_match; [apply stops_at_break_ret|].
    apply stops_at_break_bind; [apply stops_at_break_fetch_html|].
    intros [html|]; [|apply IH].
    destruct (Str.truthy html); [|apply IH].
    destruct (collect_links _ _ _ _) as [collected' seen'].
    apply stops_at_break_bind; [|intros _; apply IH].
    case_match; [apply stops_at_break_print|apply stops_at_break_ret].
Qed.

Lemma stops_at_break_collect_text_page_urls limit :
  stops_at_break (stream_collect_text_page_urls limit).
Proof.
  apply stops_at_break_bind; [apply stops_at_break_get_author_pages|]. intros authors.
  apply stops_at_break_bind; [apply stops_at_break_print|]. intros _.
  apply stops_at_break_collect_authors.
Qed.

Lemma stops_at_break_download_loop need urls saved lines :
  stops_at_break (stream_download_loop need urls saved lines).
Proof.
  revert saved lines. induction urls as [|url rest IH]; intros saved lines;
    cbn [Stream.download_loop].
  - apply stops_at_break_ret.
  - case_match; [apply stops_at_break_ret|].
    apply stops_at_break_bind; [apply stops_at_break_fetch_html|].
    intros [html|]; [|apply IH].
    destruct (Str.truthy html); [|apply IH].
    case_match.
    + apply stops_at_break_bind; [apply stops_at_break_print|]. intros _. apply IH.
    + apply stops_at_break_bind; [by apply stops_at_break_emit|]. intros _.
      apply stops_at_break_bind; [apply stops_at_break_print|]. intros _. apply IH.
Qed.

Lemma stops_at_break_download_pages urls need :
  stops_at_break (stream_download_pages urls need).
Proof.
  apply stops_at_break_bind; [by apply stops_at_break_emit|]. intros _.
  apply stops_at_break_bind; [apply stops_at_break_download_loop|]. intros [saved lines].
  apply stops_at_break_bind; [by apply stops_at_break_emit|]. intros _.
  apply stops_at_break_ret.
Qed.

Lemma stops_at_break_main : stops_at_break stream_main.
Proof.
  apply stops_at_break_bind; [apply stops_at_break_collect_text_page_urls|]. intros urls.
  apply stops_at_break_bind; [by apply stops_at_break_emit|]. intros _.
  apply stops_at_break_bind; [apply stops_at_break_print|]. intros _.
  apply stops_at_break_bind; [apply stops_at_break_download_pages|]. intros saved.
  case_match; apply stops_at_break_print.
Qed.

(** *** Where the closing report is printed *)

Lemma unreported_quiet {A} (m : M A) :
  (∀ t, reports (trace (m t)) = []) → unreported m.
Proof. done. Qed.

Lemma unreported_bind {A B} (m : M A) (k : A → M B) :
  unreported m → (∀ a, unreported (k a)) → unreported (m ≫= k).
Proof.
  intros Hm Hk t. unfold mbind, M_bind.
  destruct (res (m t)) as [a|e]; cbn [trace]; [|apply Hm].
  by rewrite reports_app, Hm, Hk.
Qed.

Lemma unreported_iter_content url stream chunks total :
  unreported (iter_content url stream chunks total).
Proof.
  revert chunks total. induction stream as [|chunk stream IH]; intros chunks total;
    cbn [iter_content]; [done|].
  apply unreported_bind; [done|]. intros _.
  destruct chunk; [apply IH|]. case_match; [done|apply IH].
Qed.

Lemma unreported_fetch_html url : unreported (fetch_html url).
Proof.
  unfold fetch_html. apply unreported_bind; [done|]. intros _.
  apply unreported_bind; [done|]. intros [|ct body enc]; [done|].
  case_match; [done|].
  apply unreported_bind; [apply unreported_iter_content|]. intros got.
  apply unreported_bind; [done|]. intros _. by destruct got.
Qed.

Lemma unreported_stream_fetch_html url : unreported (stream_fetch_html url).
Proof.
  intros t. rewrite stream_fetch_html_run.
  destruct (cut_short t url); apply unreported_fetch_html.
Qed.

Lemma unreported_collect_authors limit i author_pages collected (seen : gset string) :
  unreported (stream_collect_authors limit i author_pages collected seen).
Proof.
  revert i collected seen.
  induction author_pages as [|a rest IH]; intros i collected seen;
    cbn [Stream.collect_authors]; [done|].
  case_match; [done|].
  apply unreported_bind; [apply unreported_stream_fetch_html|].
  intros [html|]; [|apply IH].
  destruct (Str.truthy html); [|apply IH].
  destruct (collect_links _ _ _ _) as [collected' seen'].
  apply unreported_bind; [|intros _; apply IH]. by case_match.
Qed.

Lemma unreported_collect_text_page_urls limit :
  unreported (stream_collect_text_page_urls limit).
Proof.
  apply unreported_bind.
  { apply unreported_bind; [apply unreported_stream_fetch_html|].
    intros [html|]; [|done]. by destruct (Str.truthy html). }
  intros authors. apply unreported_bind; [done|]. intros _.
  apply unreported_collect_authors.
Qed.

Lemma unreported_download_loop need urls saved lines :
  unreported (stream_download_loop need urls saved lines).
Proof.
  revert saved lines. induction urls as [|url rest IH]; intros saved lines;
    cbn [Stream.download_loop]; [done|].
  case_match; [done|].
  apply unreported_bind; [apply unreported_stream_fetch_html|].
  intros [html|]; [|apply IH].
  destruct (Str.truthy html); [|apply IH].
  case_match.
  - apply unreported_bind; [done|]. intros _. apply IH.
  - apply unreported_bind; [done|]. intros _.
    apply unreported_bind; [done|]. intros _. apply IH.
Qed.

Lemma unreported_download_pages urls need :
  unreported (stream_download_pages urls need).
Proof.
  apply unreported_bind; [done|]. intros _.
  apply unreported_bind; [apply unreported_download_loop|]. intros [saved lines].
  by apply unreported_bind.
Qed.

(** *** The whole run *)

(** Where no fetch is cut short, the crawler is the crawler of a network
    whose streams end. *)
Lemma main_undisturbed t :
  (∀ t' url, cut_short t' url = false) → stream_main t = main t.
Proof.
  intros Hno. destruct (cut_off_main t) as [H|(Hr & _)]; [done|].
  destruct (stops_at_break_main t) as (_ & _ & R).
  destruct (R Hr) as (i & url & _ & Hcut). by rewrite Hno in Hcut.
Qed.

(** The run passes the seed page, or ends there with nothing written. *)
Lemma stream_main_seed t :
  (∃ html, res (stream_fetch_html AUTHORS_PAGE t) = Ret (Some html) ∧ html ≠ "")
  ∨ (gets (trace (stream_main t)) = [AUTHORS_PAGE]
     ∧ writes (trace (stream_main t)) = []
     ∧ (cut_short t AUTHORS_PAGE = false → res (stream_main t) = Raise seed_error)).
Proof.
  destruct (fetch_html_total server decode decode_utf8 AUTHORS_PAGE t)
    as (v & tr & Hf & Hw).
  pose proof (fetch_html_gets server decode decode_utf8 AUTHORS_PAGE t) as Hg.
  rewrite Hf in Hg. cbn [trace] in Hg.
  assert (Hstop : ∀ e,
            stream_get_author_pages t = MkRun (Raise e) (S t) tr →
            gets (trace (stream_main t)) = [AUTHORS_PAGE]
            ∧ writes (trace (stream_main t)) = []
            ∧ res (stream_main t) = Raise e).
  { intros e He. unfold Stream.main, Stream.collect_text_page_urls.
    rewrite (bind_raise _ _ t e (S t) tr); [done|].
    by apply bind_raise. }
  pose proof (stream_fetch_html_run AUTHORS_PAGE t) as Hs. rewrite Hf in Hs.
  cbn [trace] in Hs.
  destruct (cut_short t AUTHORS_PAGE).
  - right. destruct (Hstop ChunkedEncodingError) as (? & ? & ?); [|done].
    unfold Stream.get_author_pages. by apply bind_raise.
  - destruct v as [html|]; [destruct html as [|c html]|].
    + right. destruct (Hstop seed_error) as (? & ? & ?); [|done].
      unfold Stream.get_author_pages. by rewrite (bind_run _ _ _ _ _ _ Hs), app_nil_r.
    + left. exists (String c html). by rewrite Hs.
    + right. destruct (Hstop seed_error) as (? & ? & ?); [|done].
      unfold Stream.get_author_pages. by rewrite (bind_run _ _ _ _ _ _ Hs), app_nil_r.
Qed.

(** A run that raises has printed no closing report. *)
Lemma stream_main_raised t e :
  res (stream_main t) = Raise e → reports (trace (stream_main t)) = [].
Proof.
  unfold Stream.main. intros Hr.
  pose proof (unreported_collect_text_page_urls 1200 t) as Uc.
  destruct (res (stream_collect_text_page_urls 1200 t)) as [urls|e'] eqn:Hc;
    [|by rewrite (bind_raised _ _ _ _ Hc)].
  rewrite (bind_res _ _ _ _ Hc) in Hr |- *. unfold print in Hr |- *.
  rewrite !emit_bind in Hr |- *. cbn [res clock trace] in Hr |- *.
  set (t' := clock _) in *.
  pose proof (unreported_download_pages urls MIN_PAGES_TO_DOWNLOAD t') as Ud.
  destruct (res (stream_download_pages urls MIN_PAGES_TO_DOWNLOAD t')) as [saved|e'] eqn:Hd.
  - rewrite (bind_res _ _ _ _ Hd) in Hr. cbn [res] in Hr.
    by destruct (Z.of_nat saved <? MIN_PAGES_TO_DOWNLOAD)%Z.
  - rewrite (bind_raised _ _ _ _ Hd). cbn [trace]. rewrite reports_app, Uc. exact Ud.
Qed.

(** On streams that end, the index is written by the last event but one
    of [main], when it is written at all. *)
Lemma main_index_late t :
  ∃ tr rest,
    trace (main t) = tr ++ rest
    ∧ (∀ content, (INDEX_TXT, content) ∉ writes tr)
    ∧ (rest = [] ∨ ∃ index msg, rest = [EvWrite INDEX_TXT index; EvPrint msg]).
Proof.
  destruct (collect_text_page_urls_run server decode decode_utf8 anchors_href urljoin 1200 t)
    as [Hr Hw]. cbn zeta in Hr, Hw.
  unfold main. destruct (page t AUTHORS_PAGE) as [html|].
  2:{ rewrite (bind_raised _ _ _ _ Hr). cbn [trace]. eexists _, [].
      rewrite app_nil_r. split; [done|]. split; [|by left].
      intros content. rewrite Hw. apply not_elem_of_nil. }
  rewrite (bind_res _ _ _ _ Hr). cbn [res clock trace].
  unfold print. rewrite !emit_bind. cbn [res clock trace].
  set (urls := take _ _) in *. set (t' := clock _).
  destruct (download_pages_run server decode decode_utf8 urls MIN_PAGES_TO_DOWNLOAD t')
    as (Hd & _ & tr & Htr & Hwd). cbn zeta in Hd, Htr, Hwd.
  set (pages := take _ (qualifying _ _ _ t' urls)) in *.
  rewrite (bind_res _ _ _ _ Hd). cbn [res clock trace]. rewrite Htr.
  exists (trace (collect_text_page_urls 1200 t)
          ++ [EvWrite URLS_TXT (urls_text urls); EvPrint (InfoUrlsSaved (length urls));
              EvMakedirs OUT_DIR] ++ tr).
  exists [EvWrite INDEX_TXT (index_text (index_lines_of 1 pages));
          EvPrint (if (Z.of_nat (length pages) <? MIN_PAGES_TO_DOWNLOAD)%Z
                   then DoneShortfall (length pages) else DoneComplete (length pages))].
  split; [|split; [|right; by eexists _, _]].
  - assert (Hlast : ∀ (b : bool) t'',
              trace ((if b then emit (EvPrint (DoneShortfall (length pages)))
                      else emit (EvPrint (DoneComplete (length pages)))) t'')
              = [EvPrint (if b then DoneShortfall (length pages)
                          else DoneComplete (length pages))]) by by intros [].
    rewrite Hlast, <- !app_assoc. cbn [app]. do 3 f_equal. by rewrite <- app_assoc.
  - intros content. rewrite !writes_app, Hw, Hwd. cbn.
    intros [[=]|Hin]%elem_of_cons.
    apply (list_elem_of_fmap_2 fst) in Hin. rewrite documents_names in Hin.
    apply list_elem_of_fmap in Hin as (n & Hn & _). cbn in Hn. symmetry in Hn.
    by apply out_file_not_index in Hn.
Qed.

(** C6.  A broken stream is fatal too.  A fetch whose body stream breaks
    is not passed over: whichever request of the run it is, [main] raises
    the error of the stream there and makes no further request.  Up to the
    close of that response the run has done what it does on streams that
    end; it has printed no closing report and has not written the index.
    When the request is not the first one, the seed page had been fetched
    and was Ok: the run is aborted by the failure of another page than the
    seed page. *)
Theorem main_aborts_on_broken_stream t i url :
  gets (trace (stream_main t)) !! i = Some url →
  cut_short (t + i) url = true →
  res (stream_main t) = Raise ChunkedEncodingError
  ∧ length (gets (trace (stream_main t))) = S i
  ∧ last (trace (stream_main t)) = Some EvClose
  ∧ trace (stream_main t) `prefix_of` trace (main t)
  ∧ reports (trace (stream_main t)) = []
  ∧ (∀ content, (INDEX_TXT, content) ∉ writes (trace (stream_main t)))
  ∧ ((0 < i)%nat →
     ∃ html, res (stream_fetch_html AUTHORS_PAGE t) = Ret (Some html) ∧ html ≠ "").
Proof.
  intros Hi Hcut.
  destruct (stops_at_break_main t) as (_ & B & _).
  destruct (B i url Hi Hcut) as [Hr Hlen].
  assert (Hcut_off : trace (stream_main t) `prefix_of` trace (main t)
                     ∧ last (trace (stream_main t)) = Some EvClose).
  { destruct (cut_off_main t) as [Heq|(_ & ? & ?)]; [|done].
    rewrite Heq in Hr. pose proof (main_run server decode decode_utf8 anchors_href urljoin t) as H.
    destruct (page t AUTHORS_PAGE).
    - destruct H as (t' & H & _). by rewrite Hr in H.
    - destruct H as [H _]. by rewrite Hr in H. }
  destruct Hcut_off as [Hp Hl].
  split; [done|]. split; [done|]. split; [done|]. split; [done|].
  split; [by apply stream_main_raised in Hr|]. split.
  - destruct (main_index_late t) as (tr & rest & Htr & Hno & Hrest).
    assert (Hp' : trace (stream_main t) `prefix_of` tr).
    { rewrite Htr in Hp. destruct Hrest as [-> |(index & msg & ->)].
      - by rewrite app_nil_r in Hp.
      - change [EvWrite INDEX_TXT index; EvPrint msg]
          with ([EvWrite INDEX_TXT index] ++ [EvPrint msg]) in Hp.
        rewrite !app_assoc in Hp.
        apply prefix_snoc_cases in Hp as [Hp|Heq];
          [|rewrite Heq, last_snoc in Hl; discriminate].
        apply prefix_snoc_cases in Hp as [Hp|Heq];
          [done|rewrite Heq, last_snoc in Hl; discriminate]. }
    intros content Hin. apply writes_prefix in Hp' as [ext Hext].
    apply (Hno content). rewrite Hext. apply elem_of_app. by left.
  - intros Hpos. destruct (stream_main_seed t) as [H|(Hg & _)]; [done|].
    rewrite Hg in Hlen. cbn in Hlen. lia.
Qed.

(** X14.  The closing report.  A run of [main] that returns has printed the
    report as its last event, and only there: the shortfall when fewer than
    100 documents were written, the completion otherwise, with the number
    of documents written; the URL list, the documents and the index were
    written before it.  A run that raises has printed no report. *)
Theorem main_report t :
  match res (stream_main t) with
  | Ret _ =>
      ∃ tr urls_txt docs index,
        trace (stream_main t)
        = tr ++ [EvPrint (if (length docs <? 100)%nat then DoneShortfall (length docs)
                          else DoneComplete (length docs))]
        ∧ reports tr = []
        ∧ writes tr = (URLS_TXT, urls_txt) :: docs ++ [(INDEX_TXT, index)]
  | Raise _ => reports (trace (stream_main t)) = []
  end.
Proof.
  unfold Stream.main.
  pose proof (unreported_collect_text_page_urls 1200 t) as Uc.
  destruct (cut_off_collect_text_page_urls 1200 t) as [Hc|(Hc & _)];
    [|by rewrite (bind_raised _ _ _ _ Hc)].
  destruct (collect_text_page_urls_run server decode decode_utf8 anchors_href urljoin 1200 t)
    as [Hr Hw]. cbn zeta in Hr, Hw. rewrite <- Hc in Hr, Hw.
  destruct (page t AUTHORS_PAGE) as [html|];
    [|by rewrite (bind_raised _ _ _ _ Hr)].
  rewrite (bind_res _ _ _ _ Hr). cbn [res clock trace].
  unfold print. rewrite !emit_bind. cbn [res clock trace].
  set (urls := take _ _) in *. set (t' := clock _).
  pose proof (unreported_download_pages urls MIN_PAGES_TO_DOWNLOAD t') as Ud.
  destruct (cut_off_download_pages urls MIN_PAGES_TO_DOWNLOAD t') as [Hd|(Hd & _)].
  2:{ rewrite (bind_raised _ _ _ _ Hd). cbn [res trace].
      rewrite reports_app, Uc. exact Ud. }
  destruct (download_pages_run server decode decode_utf8 urls MIN_PAGES_TO_DOWNLOAD t')
    as (Hdr & _ & tr & Htr & Hwd). cbn zeta in Hdr, Htr, Hwd. rewrite <- Hd in Hdr, Htr.
  set (pages := take _ (qualifying _ _ _ t' urls)) in *.
  rewrite (bind_res _ _ _ _ Hdr). cbn [res clock trace].
  assert (Hlen : length (documents 1 pages) = length pages).
  { unfold documents. rewrite length_zip_with, length_seq. lia. }
  assert (Hlt : (Z.of_nat (length pages) <? MIN_PAGES_TO_DOWNLOAD)%Z
                = (length pages <? 100)%nat).
  { unfold MIN_PAGES_TO_DOWNLOAD.
    destruct (Z.ltb_spec (Z.of_nat (length pages)) 100),
             (Nat.ltb_spec (length pages) 100); try done; lia. }
  assert (Hres : ∀ b : bool, res ((if b then emit (EvPrint (DoneShortfall (length pages)))
                                   else emit (EvPrint (DoneComplete (length pages))))
                                  (clock (stream_download_pages urls MIN_PAGES_TO_DOWNLOAD t')))
                             = Ret tt) by by intros [].
  rewrite Hres.
  exists (trace (stream_collect_text_page_urls 1200 t)
          ++ EvWrite URLS_TXT (urls_text urls) :: EvPrint (InfoUrlsSaved (length urls))
             :: trace (stream_download_pages urls MIN_PAGES_TO_DOWNLOAD t')).
  exists (urls_text urls), (documents 1 pages), (index_text (index_lines_of 1 pages)).
  rewrite Hlen, Hlt. split; [|split].
  - rewrite <- !app_assoc. cbn [app]. by destruct (length pages <? 100)%nat.
  - rewrite reports_app, Uc. exact Ud.
  - rewrite writes_app, Hw. cbn [app].
    change (EvWrite ?p ?c :: EvPrint ?x :: ?y) with ([EvWrite p c; EvPrint x] ++ y).
    rewrite writes_app, Htr.
    change (EvMakedirs ?p :: ?y) with ([EvMakedirs p] ++ y).
    by rewrite !writes_app, Hwd.
Qed.

End Broken.

(** ** The further properties on the small site *)

(** The page of 5 001 216 bytes satisfies the hypotheses of X3: 1221 chunks
    are read, the last of which takes the count over the cap. *)
Lemma fetch_html_reads_to_cap_witness :
  Site.server 0 "big" = Resp Site.html_type Site.big_body None
  ∧ declares_html Site.html_type = true
  ∧ (MAX_BYTES < total_bytes Site.big_body)%Z
  ∧ ∃ pre last rest,
      Site.big_body = pre ++ last :: rest
      ∧ chunks_read (trace (site_fetch_html "big" 0)) = pre ++ [last]
      ∧ (total_bytes pre ≤ MAX_BYTES)%Z
      ∧ (MAX_BYTES < total_bytes (pre ++ [last]))%Z.
Proof.
  assert (Hbig : (MAX_BYTES < total_bytes Site.big_body)%Z) by (vm_compute; reflexivity).
  split; [reflexivity|]. split; [reflexivity|]. split; [exact Hbig|].
  destruct (fetch_html_reads_to_cap Site.server Site.decode Site.decode_utf8
              "big" 0 Site.html_type Site.big_body None eq_refl eq_refl)
    as [_ H].
  exact (H Hbig).
Defined.

(** Scenario A, with its limit of 600, satisfies the hypotheses of X7. *)
Lemma collect_text_page_urls_complete_witness :
  let urls := [Site.text "1"; Site.text "2"; Site.text "3"; Site.text "4"] in
  res (site_collect 600 0) = Ret urls
  ∧ (Z.of_nat (length urls) < 600)%Z
  ∧ ∃ html, page Site.server Site.decode Site.decode_utf8 0 AUTHORS_PAGE = Some html
      ∧ urls = first_seen [] (discovered Site.server Site.decode Site.decode_utf8
                                         Site.anchors_href Site.urljoin 1
                                         (seed_authors Site.anchors_href Site.urljoin html))
      ∧ ∀ u, u ∈ urls ↔
             u ∈ discovered Site.server Site.decode Site.decode_utf8
                            Site.anchors_href Site.urljoin 1
                            (seed_authors Site.anchors_href Site.urljoin html).
Proof.
  cbn zeta.
  assert (Hr : res (site_collect 600 0)
               = Ret [Site.text "1"; Site.text "2"; Site.text "3"; Site.text "4"])
    by (vm_compute; reflexivity).
  split; [exact Hr|]. split; [cbn; lia|].
  apply (collect_text_page_urls_complete Site.server Site.decode Site.decode_utf8
           Site.anchors_href Site.urljoin 600 0 _ Hr).
  cbn. lia.
Defined.

(** A quota of zero on the list of scenario B satisfies the hypothesis of
    X11. *)
Lemma download_pages_nothing_witness :
  ((0 ≤ 0)%Z ∨ Site.urls = [])
  ∧ site_download_pages Site.urls 0 7
    = MkRun (Ret 0%nat) 7 [EvMakedirs OUT_DIR; EvWrite INDEX_TXT ""].
Proof.
  assert (H : (0 ≤ 0)%Z ∨ Site.urls = []) by (left; lia).
  split; [exact H|].
  exact (download_pages_nothing Site.server Site.decode Site.decode_utf8 Site.urls 0 7 H).
Defined.

(** The quotas 1 and 3 on the list of scenario B satisfy the hypothesis of
    X12. *)
Lemma download_pages_quota_monotone_witness :
  (1 ≤ 3)%Z
  ∧ ∃ docs docs' index index',
      writes (trace (site_download_pages Site.urls 1 0)) = docs ++ [(INDEX_TXT, index)]
      ∧ writes (trace (site_download_pages Site.urls 3 0)) = docs' ++ [(INDEX_TXT, index')]
      ∧ docs `prefix_of` docs'.
Proof.
  assert (H : (1 ≤ 3)%Z) by lia.
  split; [exact H|].
  exact (download_pages_quota_monotone Site.server Site.decode Site.decode_utf8
           Site.urls 1 3 0 H).
Defined.

(** An author page satisfies the hypothesis of X16. *)
Lemma all_works_url_of_author_page_witness :
  let url := "https://ilibrary.ru/author/chekhov/index.html" in
  is_author_page url = true
  ∧ ∃ (secure www : bool) slug tail,
      (tail = "" ∨ tail = nl)
      ∧ slug ≠ "" ∧ lacks "/" slug = true
      ∧ url = author_url secure www slug +:+ tail
      ∧ (String.prefix "index.html" slug = false →
         author_to_all_works_url url = works_url secure www slug +:+ tail).
Proof.
  cbn zeta.
  assert (H : is_author_page "https://ilibrary.ru/author/chekhov/index.html" = true)
    by reflexivity.
  split; [exact H|]. exact (all_works_url_of_author_page _ H).
Defined.

(** A text page satisfies the hypothesis of X19. *)
Lemma text_page_not_author_page_witness :
  is_text_page "https://ilibrary.ru/text/475/p.1/index.html" = true
  ∧ is_author_page "https://ilibrary.ru/text/475/p.1/index.html" = false.
Proof.
  assert (H : is_text_page "https://ilibrary.ru/text/475/p.1/index.html" = true)
    by reflexivity.
  split; [exact H|]. exact (text_page_not_author_page _ H).
Defined.

(** A text page is made of ASCII characters, which is the hypothesis of
    X17. *)
Lemma is_text_page_shape_witness :
  let url := "https://ilibrary.ru/text/475/p.1/index.html" in
  isascii url = true
  ∧ (is_text_page url = true ↔
     ∃ (secure www : bool) id page,
       id ≠ "" ∧ all_digits id = true ∧ page ≠ "" ∧ all_digits page = true
       ∧ (url = text_url secure www id page
          ∨ url = text_url secure www id page +:+ nl)).
Proof.
  cbn zeta.
  assert (H : isascii "https://ilibrary.ru/text/475/p.1/index.html" = true)
    by reflexivity.
  split; [exact H|]. exact (is_text_page_shape _ H).
Defined.

(** ** Broken streams on the small site *)

#[local] Abbreviation site_stream_main breaks :=
  (Stream.main Site.server breaks Site.decode Site.decode_utf8
               Site.anchors_href Site.urljoin).

(** Scenario A on streams that end: the run goes through the three authors
    and returns. *)
Example scenario_a_main :
  res (main Site.server Site.decode Site.decode_utf8 Site.anchors_href Site.urljoin 0)
  = Ret tt
  ∧ length (gets (trace (main Site.server Site.decode Site.decode_utf8
                               Site.anchors_href Site.urljoin 0))) = 8%nat.
Proof. vm_compute. done. Qed.

(** Scenario C satisfies the hypotheses of C6: the seed page is Ok, the
    stream of the works page of the first author breaks, and the run ends
    there, at its second request, with the other two authors not visited
    and nothing written. *)
Lemma main_aborts_on_broken_stream_witness :
  gets (trace (site_stream_main Site.breaks 0)) !! 1%nat = Some (Site.works "a")
  ∧ Stream.cut_short Site.server Site.breaks (0 + 1) (Site.works "a") = true
  ∧ res (site_stream_main Site.breaks 0) = Raise ChunkedEncodingError
  ∧ length (gets (trace (site_stream_main Site.breaks 0))) = 2%nat
  ∧ reports (trace (site_stream_main Site.breaks 0)) = []
  ∧ writes (trace (site_stream_main Site.breaks 0)) = []
  ∧ ∃ html, res (Stream.fetch_html Site.server Site.breaks Site.decode Site.decode_utf8
                                   AUTHORS_PAGE 0) = Ret (Some html)
            ∧ html ≠ "".
Proof.
  assert (Hi : gets (trace (site_stream_main Site.breaks 0)) !! 1%nat
               = Some (Site.works "a")) by (vm_compute; reflexivity).
  assert (Hc : Stream.cut_short Site.server Site.breaks (0 + 1) (Site.works "a") = true)
    by (vm_compute; reflexivity).
  split; [exact Hi|]. split; [exact Hc|].
  destruct (main_aborts_on_broken_stream Site.server Site.breaks Site.decode
              Site.decode_utf8 Site.anchors_href Site.urljoin 0 1 (Site.works "a") Hi Hc)
    as (H1 & H2 & _ & _ & H3 & _ & H4).
  split; [exact H1|]. split; [exact H2|]. split; [exact H3|].
  split; [vm_compute; reflexivity|]. apply H4. lia.
Defined.

(** Scenario D: the streams that break are not read to their end, and the
    run returns after its report. *)
Example scenario_d :
  res (site_stream_main Site.breaks_late 0) = Ret tt
  ∧ reports (trace (site_stream_main Site.breaks_late 0)) = [DoneShortfall 0]
  ∧ last (trace (site_stream_main Site.breaks_late 0)) = Some (EvPrint (DoneShortfall 0)).
Proof. vm_compute. done. Qed.
